(** * VolSync Syncthing mover: device reconciliation and helpers

    A shallow embedding of [controllers/mover/syncthing/syncthing.go]
    together with the properties of its four operations:
    [updateSyncthingDevices], [syncthingNeedsReconfigure],
    [GenerateRandomBytes] / [GenerateRandomString] and [asTCPAddress].

    Conventions of the embedding.
    - A Go [string] is a [string] of bytes ([ascii]); a [byte] is a [Z]
      in [0, 256) with its wrap-around written out; [int] is a [Z].
    - A Go [map[string]T] is a [gmap string T].
    - A call that may panic returns a [go A]: [Returned a] or
      [Panicked k].
    - What the Go runtime grants to an allocation is a parameter, the
      class [runtime.Limits].
    - A pointer that may be nil is an [option]; the object it points to
      is threaded through explicitly. *)

From Stdlib Require Import ZArith List String Ascii Bool Lia.
From stdpp Require Import base strings gmap list.

Set Warnings "-clear-no-such-hyp".

Local Open Scope string_scope.
Local Open Scope Z_scope.
Local Open Scope list_scope.

(** ** Go run-time outcomes *)

Inductive PanicKind : Type :=
| NilDereference
| IndexOutOfRange
| MakeSliceLenOutOfRange
(* "fatal error: runtime: out of memory": no panic proper, it ends the
   process; it is the other way in which a call does not return *)
| FatalOutOfMemory.

Inductive go (A : Type) : Type :=
| Returned (a : A)
| Panicked (k : PanicKind).

Arguments Returned {A} a.
Arguments Panicked {A} k.

(** A Go [error] value is represented by its message; [nil] is [None]. *)
Definition error : Type := string.

(** ** Package [runtime]: what an allocation is granted

    [make([]byte, n)] ends in [runtime.makeslice].  It panics with
    "makeslice: len out of range" when [n] is negative or above the
    largest size of one allocation ([maxAlloc], a constant of the
    platform: 2^48 on linux/amd64), and the allocator ends the process
    when the heap cannot grant the bytes.  Both limits are parameters;
    [maxAlloc] is a value of type [int]. *)
Module runtime.

Class Limits : Type := {
  maxAlloc : Z;
  (* the number of bytes the heap can still grant to one allocation *)
  heapFree : Z;
  maxAlloc_int : (0 <=? maxAlloc) && (maxAlloc <=? 2 ^ 63 - 1) = true
}.

End runtime.

(** ** Package [protocol] (github.com/syncthing/syncthing/lib/protocol)

    The device identifier type is an external library type.  The code
    only uses its zero value, its [GoString] rendering and the parser
    [DeviceIDFromString]; they are the interface the development is
    parameterised by. *)
Module protocol.

Class Lib : Type := {
  DeviceID : Type;
  DeviceID_eq_dec :: EqDecision DeviceID;
  (* the zero value of the type *)
  EmptyDeviceID : DeviceID;
  GoString : DeviceID -> string;
  (* Go returns the pair (DeviceID, error) *)
  DeviceIDFromString : string -> DeviceID * option error
}.

End protocol.

(** ** Package [v1alpha1]: the desired-state peer *)
Module v1alpha1.

Record SyncthingPeer : Type := {
  ID : string;
  Address : string;
  Introducer : bool
}.

End v1alpha1.

(** ** Package [config] (github.com/syncthing/syncthing/lib/config)

    Only the fields that the code reads or writes are kept. *)
Module config.
Section Config.
Context `{L : protocol.Lib}.

Record DeviceConfiguration : Type := {
  DeviceID : protocol.DeviceID;
  Addresses : list string;
  Introducer : bool;
  IntroducedBy : protocol.DeviceID
}.

Record FolderConfiguration : Type := {
  FolderID : string;
  FolderDevices : list protocol.DeviceID
}.

Record Configuration : Type := {
  Devices : list DeviceConfiguration;
  Folders : list FolderConfiguration
}.
End Config.
End config.

(** ** Package [api]: the agent handle *)
Module api.
Section Api.
Context `{L : protocol.Lib}.

(** Modelled from the spec: the agent handle of package [api]
    (type [Syncthing], methods [MyID] and [ShareFoldersWithDevices])
    is not part of the sources at hand.  The handle exposes its own
    identifier and its current configuration. *)
Record Syncthing : Type := {
  SystemStatusMyID : string;
  Configuration : config.Configuration
}.

(** Modelled from the spec: [self_identifier() -> string]. *)
Definition MyID (s : Syncthing) : string := SystemStatusMyID s.

(** Modelled from the spec: [shareFoldersWithDevices(devices)]
    associates every locally defined shared folder with the given
    device set. *)
Definition ShareFoldersWithDevices
    (devices : list config.DeviceConfiguration) (s : Syncthing) : Syncthing :=
  {| SystemStatusMyID := SystemStatusMyID s;
     Configuration :=
       {| config.Devices := config.Devices (Configuration s);
          config.Folders :=
            map (fun folder =>
                   {| config.FolderID := config.FolderID folder;
                      config.FolderDevices := map config.DeviceID devices |})
                (config.Folders (Configuration s)) |} |}.

(** The assignment [syncthing.Configuration.Devices = newDevices]. *)
Definition setDevices
    (newDevices : list config.DeviceConfiguration) (s : Syncthing) : Syncthing :=
  {| SystemStatusMyID := SystemStatusMyID s;
     Configuration :=
       {| config.Devices := newDevices;
          config.Folders := config.Folders (Configuration s) |} |}.
End Api.
End api.

(** ** Package [syncthing]: the device-list updater *)
Section Updater.
Context `{L : protocol.Lib}.

(** The condition shared by both operations:
    [device.DeviceID.GoString() == syncthing.MyID() ||
     device.IntroducedBy.GoString() != ""]. *)
Definition selfOrIntroduced (myID : string) (device : config.DeviceConfiguration) : bool :=
  String.eqb (protocol.GoString (config.DeviceID device)) myID
  || negb (String.eqb (protocol.GoString (config.IntroducedBy device)) "").

(** First loop of [updateSyncthingDevices]: "add myself and introduced
    devices to the device list". *)
Fixpoint carryForward (myID : string)
    (devices newDevices : list config.DeviceConfiguration)
    : list config.DeviceConfiguration :=
  match devices with
  | [] => newDevices
  | device :: rest =>
      if selfOrIntroduced myID device
      then carryForward myID rest (newDevices ++ [device])
      else carryForward myID rest newDevices
  end.

(** The composite literal [config.DeviceConfiguration{DeviceID: ...,
    Addresses: ..., Introducer: ...}]; the fields left out take their
    zero value. *)
Definition stDeviceToAdd (deviceID : protocol.DeviceID) (device : v1alpha1.SyncthingPeer)
    : config.DeviceConfiguration :=
  {| config.DeviceID := deviceID;
     config.Addresses := [v1alpha1.Address device];
     config.Introducer := v1alpha1.Introducer device;
     config.IntroducedBy := protocol.EmptyDeviceID |}.

(** Second loop: "Add the devices from the peerList to the device
    list".  The first parse error leaves the loop and the function. *)
Fixpoint addPeers (peerList : list v1alpha1.SyncthingPeer)
    (newDevices : list config.DeviceConfiguration)
    : list config.DeviceConfiguration + error :=
  match peerList with
  | [] => inl newDevices
  | device :: rest =>
      let '(deviceID, err) := protocol.DeviceIDFromString (v1alpha1.ID device) in
      match err with
      | Some e => inr e
      | None => addPeers rest (newDevices ++ [stDeviceToAdd deviceID device])
      end
  end.

(** What a call leaves behind: the handle's object after the call, the
    arguments of the calls to [ShareFoldersWithDevices] it made, and
    the returned error. *)
Record UpdateResult : Type := {
  agentAfter : option api.Syncthing;
  shareCalls : list (list config.DeviceConfiguration);
  returnedErr : option error
}.

Definition updateSyncthingDevices
    (peerList : list v1alpha1.SyncthingPeer) (syncthing : option api.Syncthing)
    : UpdateResult :=
  match syncthing with
  | None =>
      {| agentAfter := None; shareCalls := [];
         returnedErr := Some "syncthing cannot be nil" |}
  | Some s =>
      let newDevices :=
        carryForward (api.MyID s) (config.Devices (api.Configuration s)) [] in
      match addPeers peerList newDevices with
      | inr err =>
          {| agentAfter := Some s; shareCalls := []; returnedErr := Some err |}
      | inl newDevices =>
          {| agentAfter :=
               Some (api.ShareFoldersWithDevices newDevices (api.setDevices newDevices s));
             shareCalls := [newDevices];
             returnedErr := None |}
      end
  end.

(** The parse of a peer's identifier succeeds. *)
Definition parses (p : v1alpha1.SyncthingPeer) : Prop :=
  snd (protocol.DeviceIDFromString (v1alpha1.ID p)) = None.

(** The device the updater builds for a peer. *)
Definition deviceOfPeer (p : v1alpha1.SyncthingPeer) : config.DeviceConfiguration :=
  stDeviceToAdd (fst (protocol.DeviceIDFromString (v1alpha1.ID p))) p.

(** The devices the updater keeps: self and the introduced ones. *)
Definition carried (s : api.Syncthing) : list config.DeviceConfiguration :=
  List.filter (selfOrIntroduced (api.MyID s)) (config.Devices (api.Configuration s)).

End Updater.

(** ** Package [syncthing]: the peer-set comparator *)
Section Comparator.
Context `{L : protocol.Lib}.

(** The map literal both maps start from:
    [{syncthing.MyID(): {ID: syncthing.MyID(), Address: ""}}]. *)
Definition selfEntry (myID : string) : gmap string v1alpha1.SyncthingPeer :=
  {[ myID := {| v1alpha1.ID := myID; v1alpha1.Address := "";
                v1alpha1.Introducer := false |} ]}.

(** "add all of the other devices in the provided nodeList" *)
Fixpoint addNodeList (myID : string) (nodeList : list v1alpha1.SyncthingPeer)
    (newDevices : gmap string v1alpha1.SyncthingPeer)
    : gmap string v1alpha1.SyncthingPeer :=
  match nodeList with
  | [] => newDevices
  | device :: rest =>
      if String.eqb (v1alpha1.ID device) myID
      then addNodeList myID rest newDevices
      else addNodeList myID rest (<[v1alpha1.ID device := device]> newDevices)
  end.

(** "add the rest of devices to the map"; [device.Addresses[0]] is an
    unguarded index expression. *)
Fixpoint addCurrentDevices (myID : string) (devices : list config.DeviceConfiguration)
    (currentDevs : gmap string v1alpha1.SyncthingPeer)
    : go (gmap string v1alpha1.SyncthingPeer) :=
  match devices with
  | [] => Returned currentDevs
  | device :: rest =>
      if selfOrIntroduced myID device
      then addCurrentDevices myID rest currentDevs
      else
        match config.Addresses device with
        | [] => Panicked IndexOutOfRange
        | address0 :: _ =>
            addCurrentDevices myID rest
              (<[protocol.GoString (config.DeviceID device) :=
                   {| v1alpha1.ID := protocol.GoString (config.DeviceID device);
                      v1alpha1.Address := address0;
                      v1alpha1.Introducer := false |}]> currentDevs)
        end
  end.

(** [_, ok := m[k]] *)
Definition hasKey (m : gmap string v1alpha1.SyncthingPeer) (k : string) : bool :=
  match m !! k with Some _ => true | None => false end.

(** [for _, device := range m { if _, ok := other[device.ID]; !ok
    { return true } }]: the loop leaves with [true] as soon as some
    value of [m] has an identifier that is no key of [other].  Go
    ranges over a map in an unspecified order; the loop's outcome
    does not depend on it. *)
Definition rangeFindsMissing (m other : gmap string v1alpha1.SyncthingPeer) : bool :=
  existsb (fun entry => negb (hasKey other (v1alpha1.ID (snd entry)))) (map_to_list m).

Definition syncthingNeedsReconfigure
    (nodeList : list v1alpha1.SyncthingPeer) (syncthing : option api.Syncthing)
    : go bool :=
  match syncthing with
  | None => Panicked NilDereference
  | Some s =>
      let newDevices := addNodeList (api.MyID s) nodeList (selfEntry (api.MyID s)) in
      match addCurrentDevices (api.MyID s) (config.Devices (api.Configuration s))
              (selfEntry (api.MyID s)) with
      | Panicked k => Panicked k
      | Returned currentDevs =>
          if rangeFindsMissing newDevices currentDevs then Returned true
          else if rangeFindsMissing currentDevs newDevices then Returned true
          else Returned false
      end
  end.

(** *** The comparison the specification describes

    The key sets of the two normalised maps, written as sets of
    identifiers, and the validity condition on the agent's device
    list. *)

Definition desiredKeys (myID : string) (nodeList : list v1alpha1.SyncthingPeer)
    : gset string :=
  {[ myID ]} ∪ list_to_set (filter (fun i => i ≠ myID) (map v1alpha1.ID nodeList)).

(** The devices that are neither self nor introduced. *)
Definition managedDevices (myID : string) (devices : list config.DeviceConfiguration)
    : list config.DeviceConfiguration :=
  List.filter (fun device => negb (selfOrIntroduced myID device)) devices.

Definition managedIDs (myID : string) (devices : list config.DeviceConfiguration)
    : list string :=
  map (fun device => protocol.GoString (config.DeviceID device))
      (managedDevices myID devices).

Definition currentKeys (myID : string) (devices : list config.DeviceConfiguration)
    : gset string :=
  {[ myID ]} ∪ list_to_set (managedIDs myID devices).

(** Every device that is neither self nor introduced has at least one
    address. *)
Definition addressesPresent (myID : string) (devices : list config.DeviceConfiguration)
    : Prop :=
  ∀ device, In device (managedDevices myID devices) → config.Addresses device ≠ [].

Definition addressesPresentb (myID : string) (devices : list config.DeviceConfiguration)
    : bool :=
  forallb (fun device => match config.Addresses device with [] => false | _ => true end)
          (managedDevices myID devices).

(** Every entry of the map is filed under its own identifier. *)
Definition keyed (m : gmap string v1alpha1.SyncthingPeer) : Prop :=
  ∀ k v, m !! k = Some v -> v1alpha1.ID v = k.

End Comparator.

(** ** Package [syncthing]: random bytes and strings *)

(** The operating system's entropy source, as [crypto/rand.Read] sees
    it: either it fails with an error, or it fills the whole buffer; the
    [i]-th byte it delivers is [randByte i mod 256]. *)
Record EntropySource : Type := {
  randErr : option error;
  randByte : nat -> Z
}.

Section Random.
Context `{R : runtime.Limits}.

(** [make([]byte, length)]: a length that is negative or above
    [maxAlloc] panics, a length the heap cannot grant ends the process,
    otherwise the slice holds [length] zero bytes. *)
Definition makeBytes (length : Z) : go (list Z) :=
  if (length <? 0) || (runtime.maxAlloc <? length) then Panicked MakeSliceLenOutOfRange
  else if runtime.heapFree <? length then Panicked FatalOutOfMemory
  else Returned (repeat 0 (Z.to_nat length)).

(** [rand.Read(b)]: the buffer after the call and the error. *)
Definition randRead (src : EntropySource) (b : list Z) : list Z * option error :=
  match randErr src with
  | Some e => (b, Some e)
  | None => (map (fun i => randByte src i mod 256) (seq 0 (List.length b)), None)
  end.

Definition GenerateRandomBytes (src : EntropySource) (length : Z)
    : go (list Z * option error) :=
  match makeBytes length with
  | Panicked k => Panicked k
  | Returned b =>
      let '(b, err) := randRead src b in
      match err with
      | Some e => Returned ([], Some e)
      | None => Returned (b, None)
      end
  end.

Definition lowerBound : Z := 33.
Definition upperBound : Z := 126.
(** [upperBound - lowerBound + 1] on bytes *)
Definition acceptableRange : Z := ((upperBound - lowerBound) mod 256 + 1) mod 256.

(** [(b[i] % acceptableRange) + lowerBound] on bytes *)
Definition acceptableByte (b : Z) : Z := (b mod acceptableRange + lowerBound) mod 256.

(** The loop [for i := 0; i < len(b); i++ { ... append ... }]. *)
Fixpoint mapAcceptable (b acceptableBytes : list Z) : list Z :=
  match b with
  | [] => acceptableBytes
  | bi :: rest => mapAcceptable rest (acceptableBytes ++ [acceptableByte bi])
  end.

(** [string(bytes)] *)
Definition stringOfBytes (bs : list Z) : string :=
  string_of_list_ascii (map (fun b => ascii_of_nat (Z.to_nat b)) bs).

Definition GenerateRandomString (src : EntropySource) (length : Z)
    : go (string * option error) :=
  match GenerateRandomBytes src length with
  | Panicked k => Panicked k
  | Returned (b, err) =>
      match err with
      | Some e => Returned ("", Some e)
      | None => Returned (stringOfBytes (mapAcceptable b []), None)
      end
  end.

End Random.

(** ** Package [regexp]: the fragment [asTCPAddress] needs

    Regular expressions over bytes, matched with Brzozowski
    derivatives.  The pattern of [asTCPAddress] is anchored at both ends
    ([^] ... [$], without the multi-line flag), so [MatchString] holds
    exactly when the whole text is in the language of what stands
    between the anchors.  Its classes [\w] and [\s] are ASCII-only in
    Go, and no byte of a multi-byte UTF-8 sequence is in either of
    them, so matching byte by byte agrees with matching rune by rune. *)
Module regexp.

Inductive Regexp : Type :=
| NoMatch
| EmptyMatch
| CharClass (p : ascii -> bool)
| Concat (r1 r2 : Regexp)
| Alternate (r1 r2 : Regexp)
| Star (r : Regexp)
| Plus (r : Regexp).

Definition Literal (c : ascii) : Regexp := CharClass (Ascii.eqb c).

Definition inRange (lo hi : N) (c : ascii) : bool :=
  ((lo <=? N_of_ascii c) && (N_of_ascii c <=? hi))%N.

(** [\w] is [[0-9A-Za-z_]] *)
Definition isWordChar (c : ascii) : bool :=
  inRange 48 57 c || inRange 65 90 c || inRange 97 122 c || Ascii.eqb c "_".

(** [\s] is [[\t\n\f\r ]] *)
Definition isSpaceChar (c : ascii) : bool :=
  let n := N_of_ascii c in
  ((n =? 9) || (n =? 10) || (n =? 12) || (n =? 13) || (n =? 32))%N.

Definition notSpaceChar (c : ascii) : bool := negb (isSpaceChar c).

Fixpoint nullable (r : Regexp) : bool :=
  match r with
  | NoMatch => false
  | EmptyMatch => true
  | CharClass _ => false
  | Concat r1 r2 => nullable r1 && nullable r2
  | Alternate r1 r2 => nullable r1 || nullable r2
  | Star _ => true
  | Plus r => nullable r
  end.

Fixpoint derive (c : ascii) (r : Regexp) : Regexp :=
  match r with
  | NoMatch => NoMatch
  | EmptyMatch => NoMatch
  | CharClass p => if p c then EmptyMatch else NoMatch
  | Concat r1 r2 =>
      if nullable r1
      then Alternate (Concat (derive c r1) r2) (derive c r2)
      else Concat (derive c r1) r2
  | Alternate r1 r2 => Alternate (derive c r1) (derive c r2)
  | Star r => Concat (derive c r) (Star r)
  | Plus r => Concat (derive c r) (Star r)
  end.

Fixpoint matchBytes (r : Regexp) (s : list ascii) : bool :=
  match s with
  | [] => nullable r
  | c :: rest => matchBytes (derive c r) rest
  end.

Definition MatchString (r : Regexp) (s : string) : bool :=
  matchBytes r (list_ascii_of_string s).

(** The language of a regular expression. *)
Inductive Matches : Regexp -> list ascii -> Prop :=
| MEmpty : Matches EmptyMatch []
| MClass p c : p c = true -> Matches (CharClass p) [c]
| MConcat r1 r2 s1 s2 :
    Matches r1 s1 -> Matches r2 s2 -> Matches (Concat r1 r2) (s1 ++ s2)
| MAltL r1 r2 s : Matches r1 s -> Matches (Alternate r1 r2) s
| MAltR r1 r2 s : Matches r2 s -> Matches (Alternate r1 r2) s
| MStarNil r : Matches (Star r) []
| MStarApp r s1 s2 :
    Matches r s1 -> Matches (Star r) s2 -> Matches (Star r) (s1 ++ s2)
| MPlus r s1 s2 :
    Matches r s1 -> Matches (Star r) s2 -> Matches (Plus r) (s1 ++ s2).

End regexp.

(** ** Package [syncthing]: the address normaliser *)

(** The body of [^(\w+:\/\/)[^\s]+$] between its anchors. *)
Definition uriPattern : regexp.Regexp :=
  regexp.Concat
    (regexp.Concat (regexp.Plus (regexp.CharClass regexp.isWordChar))
       (regexp.Concat (regexp.Literal ":")
          (regexp.Concat (regexp.Literal "/") (regexp.Literal "/"))))
    (regexp.Plus (regexp.CharClass regexp.notSpaceChar)).

Definition asTCPAddress (address : string) : string :=
  if regexp.MatchString uriPattern address then address
  else "tcp://" +:+ address.

(** *** What the pattern accepts, read off directly

    The longest run of word characters at the front of the text, and
    the test "a non-empty run of word characters, then [://], then a
    non-empty rest without white space". *)
Fixpoint spanWord (s : list ascii) : list ascii * list ascii :=
  match s with
  | [] => ([], [])
  | c :: rest =>
      if regexp.isWordChar c
      then let '(w, tail) := spanWord rest in (c :: w, tail)
      else ([], s)
  end.

(** The text does not start with a word character. *)
Definition headNotWord (s : list ascii) : Prop :=
  match s with [] => True | c :: _ => regexp.isWordChar c = false end.

Definition schemeAndRest (s : list ascii) : bool :=
  match spanWord s with
  | (_ :: _, ":" :: "/" :: "/" :: c :: rest)%char =>
      forallb regexp.notSpaceChar (c :: rest)
  | _ => false
  end.

(** The pattern of the specification's wording, [^\w+://]: it is not
    anchored at the end, so anything may follow the scheme. *)
Definition schemePrefixPattern : regexp.Regexp :=
  regexp.Concat
    (regexp.Concat (regexp.Plus (regexp.CharClass regexp.isWordChar))
       (regexp.Concat (regexp.Literal ":")
          (regexp.Concat (regexp.Literal "/") (regexp.Literal "/"))))
    (regexp.Star (regexp.CharClass (fun _ => true))).

(** No white-space byte occurs in the string. *)
Definition spaceFree (s : string) : bool :=
  forallb regexp.notSpaceChar (list_ascii_of_string s).

(** ** A concrete identifier library, for evaluating the model

    Identifiers are kept in their textual form: the parser accepts the
    strings over the base-32 alphabet ([A]-[Z], [2]-[7]) and dashes,
    and [GoString] prints an identifier as it is. *)
Module sample.

Definition isIDChar (c : ascii) : bool :=
  regexp.inRange 65 90 c || regexp.inRange 50 55 c || Ascii.eqb c "-".

#[export] Instance lib : protocol.Lib := {|
  protocol.DeviceID := string;
  protocol.EmptyDeviceID := "";
  protocol.GoString := fun i => i;
  protocol.DeviceIDFromString := fun s =>
    if forallb isIDChar (list_ascii_of_string s) then (s, None)
    else ("", Some "device ID invalid")
|}.

(** The limits of linux/amd64, with one GiB of heap left. *)
#[export] Instance linuxAmd64 : runtime.Limits := {|
  runtime.maxAlloc := 2 ^ 48;
  runtime.heapFree := 2 ^ 30;
  runtime.maxAlloc_int := eq_refl
|}.

Definition peer (i a : string) : v1alpha1.SyncthingPeer :=
  {| v1alpha1.ID := i; v1alpha1.Address := a; v1alpha1.Introducer := false |}.

Definition device (i : string) (addrs : list string) (by_ : string)
    : config.DeviceConfiguration :=
  {| config.DeviceID := i; config.Addresses := addrs;
     config.Introducer := false; config.IntroducedBy := by_ |}.

Definition agent (devices : list config.DeviceConfiguration) : api.Syncthing :=
  {| api.SystemStatusMyID := "SELF";
     api.Configuration :=
       {| config.Devices := devices;
          config.Folders := [ {| config.FolderID := "data"; config.FolderDevices := [] |} ] |} |}.

Definition selfDevice : config.DeviceConfiguration := device "SELF" [] "".

(** The example of the specification: the agent knows itself and a
    device [B] introduced by [A]. *)
Definition agentSelfB : api.Syncthing :=
  agent [selfDevice; device "B" ["10.0.0.3:22000"] "A"].

(** An agent with a directly managed device that has no address. *)
Definition agentNoAddress : api.Syncthing := agent [selfDevice; device "B" [] ""].

(** An agent that knows itself, the introduced device [B] and a
    directly managed device [C]. *)
Definition agentSelfBC : api.Syncthing :=
  agent [selfDevice; device "B" ["10.0.0.3:22000"] "A"; device "C" ["10.0.0.4:22000"] ""].

Definition peerA : v1alpha1.SyncthingPeer := peer "A" "10.0.0.2:22000".

Definition entropy (bytes : list Z) : EntropySource :=
  {| randErr := None; randByte := fun i => nth i bytes 0 |}.

End sample.

(** * Properties *)

(** ** The device-list updater *)
Section UpdaterFacts.
Context `{L : protocol.Lib}.

Implicit Types (peerList : list v1alpha1.SyncthingPeer)
               (devices acc : list config.DeviceConfiguration)
               (s : api.Syncthing).

Lemma carryForward_filter myID devices acc :
  carryForward myID devices acc = acc ++ List.filter (selfOrIntroduced myID) devices.
Proof.
  revert acc; induction devices as [|d rest IH]; intros acc; simpl.
  - by rewrite app_nil_r.
  - destruct (selfOrIntroduced myID d); rewrite IH; [|done].
    by rewrite <- app_assoc.
Qed.

Lemma addPeers_all_parse peerList acc :
  Forall parses peerList ->
  addPeers peerList acc = inl (acc ++ map deviceOfPeer peerList).
Proof.
  intros Hall; revert acc; induction Hall as [|p rest Hp _ IH]; intros acc; simpl.
  - by rewrite app_nil_r.
  - unfold parses in Hp. unfold deviceOfPeer at 1.
    destruct (protocol.DeviceIDFromString (v1alpha1.ID p)) as [i e]; simpl in *.
    subst e. rewrite IH. by rewrite <- app_assoc.
Qed.

Lemma addPeers_some_fails peerList acc :
  Exists (fun p => ¬ parses p) peerList ->
  ∃ e, addPeers peerList acc = inr e.
Proof.
  intros Hex; revert acc; induction peerList as [|p rest IH]; intros acc.
  - inversion Hex.
  - simpl. unfold parses in *.
    destruct (protocol.DeviceIDFromString (v1alpha1.ID p)) as [i [e|]] eqn:Hp.
    + by exists e.
    + apply IH. inversion Hex as [? ? Hbad|]; subst; [|done].
      rewrite Hp in Hbad. by destruct Hbad.
Qed.

Lemma addPeers_inl_parse peerList acc l :
  addPeers peerList acc = inl l -> Forall parses peerList.
Proof.
  revert acc; induction peerList as [|p rest IH]; intros acc Hl; [constructor|].
  simpl in Hl.
  destruct (protocol.DeviceIDFromString (v1alpha1.ID p)) as [i [e|]] eqn:Hp; [done|].
  constructor; [|by eapply IH].
  unfold parses. by rewrite Hp.
Qed.

(** The updater succeeds exactly when every peer identifier parses. *)
Lemma updateSyncthingDevices_succeeds_iff peerList s :
  returnedErr (updateSyncthingDevices peerList (Some s)) = None <-> Forall parses peerList.
Proof.
  unfold updateSyncthingDevices. split.
  - destruct (addPeers peerList _) eqn:Hadd; simpl; [|done].
    intros _. by eapply addPeers_inl_parse.
  - intros Hall. by rewrite (addPeers_all_parse _ _ Hall).
Qed.

(** [C3]  The updater is all-or-nothing: when some peer of the desired
    list has an identifier that does not parse, the call returns an
    error, the agent is after the call what it was before (device list
    included) and no folder-sharing call was made. *)
Theorem updateSyncthingDevices_all_or_nothing peerList (syncthing : option api.Syncthing) :
  Exists (fun p => ¬ parses p) peerList ->
  ∃ e, updateSyncthingDevices peerList syncthing =
         {| agentAfter := syncthing; shareCalls := []; returnedErr := Some e |}.
Proof.
  intros Hbad. destruct syncthing as [s|]; simpl; [|by eexists].
  destruct (addPeers_some_fails peerList
              (carryForward (api.MyID s) (config.Devices (api.Configuration s)) []) Hbad)
    as [e He].
  exists e. by rewrite He.
Qed.

(** [C2], as amended.  After a call on a non-nil handle that returns no
    error, the agent's device list is, in this order, every previously
    present device that is self or has a non-empty introduced-by, as it
    was, followed by one newly built device per entry of the desired
    list (parsed identifier, the peer's address as only address, the
    peer's introducer flag, no introduced-by); the agent's identifier
    is unchanged and the one folder-sharing call got that list.  The
    identifiers of the list are free of duplicates exactly when those
    of the carried devices are, those parsed from the desired list are,
    and no carried identifier is also a parsed one. *)
Theorem updateSyncthingDevices_device_list peerList s :
  returnedErr (updateSyncthingDevices peerList (Some s)) = None ->
  ∃ s',
    agentAfter (updateSyncthingDevices peerList (Some s)) = Some s'
    ∧ config.Devices (api.Configuration s') = carried s ++ map deviceOfPeer peerList
    ∧ api.MyID s' = api.MyID s
    ∧ shareCalls (updateSyncthingDevices peerList (Some s))
        = [carried s ++ map deviceOfPeer peerList]
    ∧ (NoDup (map config.DeviceID (config.Devices (api.Configuration s')))
       <-> NoDup (map config.DeviceID (carried s))
           ∧ NoDup (map config.DeviceID (map deviceOfPeer peerList))
           ∧ ∀ i, i ∈ map config.DeviceID (carried s) ->
                  i ∉ map config.DeviceID (map deviceOfPeer peerList)).
Proof.
  intros Hok. apply updateSyncthingDevices_succeeds_iff in Hok.
  unfold updateSyncthingDevices.
  rewrite (addPeers_all_parse _ _ Hok), carryForward_filter. simpl.
  eexists; split; [reflexivity|]. simpl. fold (carried s).
  split; [done|]. split; [done|]. split; [done|].
  rewrite map_app, NoDup_app. tauto.
Qed.

End UpdaterFacts.

(** ** The peer-set comparator *)
Section ComparatorFacts.
Context `{L : protocol.Lib}.

Implicit Types (nodeList : list v1alpha1.SyncthingPeer)
               (devices : list config.DeviceConfiguration)
               (m other : gmap string v1alpha1.SyncthingPeer)
               (myID : string).

Lemma keyed_insert m (p : v1alpha1.SyncthingPeer) :
  keyed m -> keyed (<[v1alpha1.ID p := p]> m).
Proof.
  intros Hm k v. rewrite lookup_insert. case_decide; [|apply Hm].
  intros [= <-]. done.
Qed.

Lemma keyed_selfEntry myID : keyed (selfEntry myID).
Proof.
  intros k v. unfold selfEntry. rewrite lookup_singleton. case_decide; [|done].
  by intros [= <-].
Qed.

Lemma dom_selfEntry myID : dom (selfEntry myID) = {[ myID ]}.
Proof. unfold selfEntry. by rewrite dom_singleton_L. Qed.

Lemma addNodeList_keyed myID nodeList m :
  keyed m -> keyed (addNodeList myID nodeList m).
Proof.
  revert m; induction nodeList as [|p rest IH]; intros m Hm; simpl; [done|].
  destruct (String.eqb _ _); apply IH; [done|]. by apply keyed_insert.
Qed.

Lemma addNodeList_dom myID nodeList m :
  dom (addNodeList myID nodeList m)
  = dom m ∪ list_to_set (filter (fun i => i ≠ myID) (map v1alpha1.ID nodeList)).
Proof.
  revert m; induction nodeList as [|p rest IH]; intros m; simpl.
  - set_solver.
  - destruct (String.eqb_spec (v1alpha1.ID p) myID) as [Heq|Hne]; rewrite IH.
    + rewrite filter_cons_False by (by intros ?). done.
    + rewrite filter_cons_True by done. rewrite dom_insert_L. set_solver.
Qed.

(** The desired map of the code has the key set of the specification. *)
Lemma desired_dom myID nodeList :
  dom (addNodeList myID nodeList (selfEntry myID)) = desiredKeys myID nodeList.
Proof. by rewrite addNodeList_dom, dom_selfEntry. Qed.

Lemma addCurrentDevices_app myID devices1 devices2 m :
  addCurrentDevices myID (devices1 ++ devices2) m
  = match addCurrentDevices myID devices1 m with
    | Returned m' => addCurrentDevices myID devices2 m'
    | Panicked k => Panicked k
    end.
Proof.
  revert m; induction devices1 as [|d rest IH]; intros m; simpl; [done|].
  destruct (selfOrIntroduced myID d); [apply IH|].
  destruct (config.Addresses d); [done|apply IH].
Qed.

Lemma addCurrentDevices_returned myID devices m m' :
  addCurrentDevices myID devices m = Returned m' ->
  (keyed m -> keyed m')
  ∧ dom m' = dom m ∪ list_to_set (managedIDs myID devices).
Proof.
  unfold managedIDs, managedDevices.
  revert m; induction devices as [|d rest IH]; intros m; simpl.
  - intros [= <-]. split; [done|set_solver].
  - destruct (selfOrIntroduced myID d); simpl; [apply IH|].
    destruct (config.Addresses d) as [|a0 ?]; [done|].
    intros Hrun. destruct (IH _ Hrun) as [Hkeyed Hdom]. split.
    + intros Hm. apply Hkeyed.
      exact (keyed_insert m
               {| v1alpha1.ID := protocol.GoString (config.DeviceID d);
                  v1alpha1.Address := a0; v1alpha1.Introducer := false |} Hm).
    + rewrite Hdom, dom_insert_L. set_solver.
Qed.

(** The loop over the current devices runs to its end exactly when
    no managed device lacks an address; otherwise the index expression
    panics. *)
Lemma addCurrentDevices_total myID devices m :
  addressesPresent myID devices -> ∃ m', addCurrentDevices myID devices m = Returned m'.
Proof.
  unfold addressesPresent, managedDevices.
  revert m; induction devices as [|d rest IH]; intros m Hok; simpl; [by eexists|].
  simpl in Hok. destruct (selfOrIntroduced myID d); simpl in Hok; [by apply IH|].
  destruct (config.Addresses d) as [|a0 ?] eqn:Haddr.
  - exfalso. by apply (Hok d); [left|].
  - apply IH. intros d' Hd'. apply Hok. by right.
Qed.

Lemma addCurrentDevices_panics myID devices m :
  ¬ addressesPresent myID devices ->
  addCurrentDevices myID devices m = Panicked IndexOutOfRange.
Proof.
  unfold addressesPresent, managedDevices.
  revert m; induction devices as [|d rest IH]; intros m Hbad; simpl.
  - exfalso. apply Hbad. by intros ? [].
  - simpl in Hbad. destruct (selfOrIntroduced myID d); simpl in Hbad; [by apply IH|].
    destruct (config.Addresses d) as [|a0 ?] eqn:Haddr; [done|].
    apply IH. intros Hrest. apply Hbad. intros d' [<-|Hd']; [by rewrite Haddr|].
    by apply Hrest.
Qed.

Lemma hasKey_dom m k : hasKey m k = true <-> k ∈ dom m.
Proof.
  unfold hasKey. rewrite elem_of_dom. destruct (m !! k) eqn:Hk.
  - split; [intros _; by eexists|done].
  - split; [done|by intros [? ?]].
Qed.

(** On maps filed by identifier, the range loop finds a missing entry
    exactly when the key set of the first map is no subset of the
    other's. *)
Lemma rangeFindsMissing_false m other :
  keyed m -> rangeFindsMissing m other = false <-> dom m ⊆ dom other.
Proof.
  intros Hm. unfold rangeFindsMissing. split.
  - intros Hnone k Hk. apply elem_of_dom in Hk as [v Hv].
    apply hasKey_dom. rewrite <- (Hm _ _ Hv).
    destruct (hasKey other (v1alpha1.ID v)) eqn:Hhas; [done|].
    assert (existsb (fun entry => negb (hasKey other (v1alpha1.ID (snd entry))))
              (map_to_list m) = true) as Habs; [|congruence].
    apply existsb_exists. exists (k, v). split.
    + apply list_elem_of_In. by apply elem_of_map_to_list.
    + simpl. by rewrite Hhas.
  - intros Hsub. apply not_true_is_false. intros Hex.
    apply existsb_exists in Hex as [[k v] [Hin Hmiss]].
    apply list_elem_of_In, elem_of_map_to_list in Hin. simpl in Hmiss.
    apply negb_true_iff, not_true_iff_false in Hmiss. apply Hmiss.
    apply hasKey_dom, Hsub. rewrite (Hm _ _ Hin). apply elem_of_dom. by eexists.
Qed.

(** What the comparator computes once both maps are built. *)
Lemma syncthingNeedsReconfigure_returned nodeList (s : api.Syncthing) :
  addressesPresent (api.MyID s) (config.Devices (api.Configuration s)) ->
  syncthingNeedsReconfigure nodeList (Some s)
  = Returned (bool_decide (desiredKeys (api.MyID s) nodeList
                           ≠ currentKeys (api.MyID s) (config.Devices (api.Configuration s)))).
Proof.
  intros Hok. unfold syncthingNeedsReconfigure.
  destruct (addCurrentDevices_total _ _ (selfEntry (api.MyID s)) Hok) as [cur Hcur].
  rewrite Hcur. apply addCurrentDevices_returned in Hcur as [Hkeyed Hdom].
  specialize (Hkeyed (keyed_selfEntry _)). rewrite dom_selfEntry in Hdom.
  fold (currentKeys (api.MyID s) (config.Devices (api.Configuration s))) in Hdom.
  set (new := addNodeList (api.MyID s) nodeList (selfEntry (api.MyID s))).
  assert (keyed new) as Hnew.
  { apply addNodeList_keyed, keyed_selfEntry. }
  pose proof (rangeFindsMissing_false new cur Hnew) as H1.
  pose proof (rangeFindsMissing_false cur new Hkeyed) as H2.
  unfold new in H1, H2.
  rewrite desired_dom, Hdom in H1, H2.
  fold new in H1, H2.
  destruct (rangeFindsMissing new cur).
  - f_equal. symmetry. apply bool_decide_eq_true. intros Heq.
    assert (true = false); [|done]. apply H1. by rewrite Heq.
  - destruct (rangeFindsMissing cur new).
    + f_equal. symmetry. apply bool_decide_eq_true. intros Heq.
      assert (true = false); [|done]. apply H2. by rewrite Heq.
    + f_equal. symmetry. apply bool_decide_eq_false. intros Hne. apply Hne.
      apply set_eq. intros k. split; [apply H1|apply H2]; done.
Qed.

(** [C1], as amended.  For every desired peer list and every non-nil
    agent handle in which each device that is neither self nor
    introduced has at least one address, the comparator returns, and it
    returns [true] if and only if the key sets of the two normalised
    maps differ: the desired map, seeded with self, holds every desired
    peer's identifier but those equal to self; the current map, seeded
    with self, holds the identifier of every current device but self and
    the devices with a non-empty introduced-by.  In particular it
    returns [false] whenever the desired peer identifiers are the
    identifiers of the current non-introduced, non-self devices. *)
Theorem syncthingNeedsReconfigure_key_sets nodeList (s : api.Syncthing) :
  addressesPresent (api.MyID s) (config.Devices (api.Configuration s)) ->
  let myID := api.MyID s in
  let devices := config.Devices (api.Configuration s) in
  let newDevices := addNodeList myID nodeList (selfEntry myID) in
  ∃ currentDevs,
    addCurrentDevices myID devices (selfEntry myID) = Returned currentDevs
    ∧ dom newDevices = desiredKeys myID nodeList
    ∧ dom currentDevs = currentKeys myID devices
    ∧ (syncthingNeedsReconfigure nodeList (Some s) = Returned true
       <-> dom newDevices ≠ dom currentDevs)
    ∧ (syncthingNeedsReconfigure nodeList (Some s) = Returned false
       <-> dom newDevices = dom currentDevs)
    ∧ ((list_to_set (map v1alpha1.ID nodeList) : gset string)
         = list_to_set (managedIDs myID devices)
       -> syncthingNeedsReconfigure nodeList (Some s) = Returned false).
Proof.
  intros Hok myID devices newDevices.
  destruct (addCurrentDevices_total myID devices (selfEntry myID) Hok) as [cur Hcur].
  exists cur. split; [done|].
  apply addCurrentDevices_returned in Hcur as [_ Hdom]. rewrite dom_selfEntry in Hdom.
  fold (currentKeys myID devices) in Hdom.
  unfold newDevices. rewrite desired_dom, Hdom.
  rewrite (syncthingNeedsReconfigure_returned nodeList s Hok).
  fold myID devices.
  split; [done|]. split; [done|].
  assert (∀ b b' : bool, Returned b = Returned b' <-> b = b') as Hinj.
  { intros b b'. split; [by intros [= ->]|by intros ->]. }
  rewrite !Hinj. split; [|split].
  - by rewrite bool_decide_eq_true.
  - rewrite bool_decide_eq_false. split; [|by intros ? ?].
    intros Hnn. by destruct (decide (desiredKeys myID nodeList = currentKeys myID devices)).
  - intros Hsame. apply bool_decide_eq_false. intros Hne. apply Hne.
    unfold desiredKeys, currentKeys. rewrite <- Hsame.
    apply set_eq. intros k.
    rewrite !elem_of_union, !elem_of_list_to_set, list_elem_of_filter, elem_of_singleton.
    split; [tauto|]. destruct (decide (k = myID)); tauto.
Qed.

(** [C4]  A device with a non-empty introduced-by never affects the
    comparator: putting such a device anywhere into the agent's current
    device list, or taking it out, leaves the outcome of the call as it
    was, for every desired peer list and every agent state. *)
Theorem syncthingNeedsReconfigure_ignores_introduced
    nodeList myID (folders : list config.FolderConfiguration)
    (before after : list config.DeviceConfiguration) (device : config.DeviceConfiguration) :
  protocol.GoString (config.IntroducedBy device) ≠ "" ->
  syncthingNeedsReconfigure nodeList
    (Some {| api.SystemStatusMyID := myID;
             api.Configuration := {| config.Devices := before ++ device :: after;
                                     config.Folders := folders |} |})
  = syncthingNeedsReconfigure nodeList
      (Some {| api.SystemStatusMyID := myID;
               api.Configuration := {| config.Devices := before ++ after;
                                       config.Folders := folders |} |}).
Proof.
  intros Hintro. unfold syncthingNeedsReconfigure, api.MyID. simpl.
  rewrite !addCurrentDevices_app.
  destruct (addCurrentDevices myID before (selfEntry myID)) as [m|k]; [|done].
  simpl. unfold selfOrIntroduced.
  apply String.eqb_neq in Hintro. rewrite Hintro. simpl.
  by rewrite orb_true_r.
Qed.

(** [C8]  The comparator returns a boolean exactly on the valid inputs:
    with a non-nil handle, the call returns if and only if every device
    of the current configuration that is neither self nor introduced
    has a non-empty address list; the first-address access is what
    panics otherwise. *)
Theorem syncthingNeedsReconfigure_total_iff_valid nodeList (s : api.Syncthing) :
  addressesPresent (api.MyID s) (config.Devices (api.Configuration s))
  <-> ∃ b, syncthingNeedsReconfigure nodeList (Some s) = Returned b.
Proof.
  split.
  - intros Hok. rewrite (syncthingNeedsReconfigure_returned nodeList s Hok). by eexists.
  - intros [b Hb].
    destruct (decide (addressesPresentb (api.MyID s)
                        (config.Devices (api.Configuration s)) = true)) as [Hyes|Hno].
    + unfold addressesPresentb in Hyes. rewrite forallb_forall in Hyes.
      intros d Hd. specialize (Hyes d Hd). by destruct (config.Addresses d).
    + exfalso. unfold syncthingNeedsReconfigure in Hb.
      rewrite (addCurrentDevices_panics (api.MyID s)) in Hb; [done|].
      intros Hok. apply Hno. unfold addressesPresentb. apply forallb_forall.
      intros d Hd. specialize (Hok d Hd). by destruct (config.Addresses d).
Qed.

(** [C9]  The nil guard is asymmetric.  On a nil handle the updater
    returns its error at once: nothing is built, nothing is mutated and
    no folder-sharing call is made, whatever the peer list.  The
    comparator has no such guard: on a nil handle it panics with a nil
    dereference, whatever the node list, so it has a result only for a
    non-nil handle. *)
Theorem nil_handle_asymmetry
    (peerList nodeList : list v1alpha1.SyncthingPeer) :
  updateSyncthingDevices peerList None
    = {| agentAfter := None; shareCalls := [];
         returnedErr := Some "syncthing cannot be nil" |}
  ∧ syncthingNeedsReconfigure nodeList None = Panicked NilDereference.
Proof. split; reflexivity. Qed.

End ComparatorFacts.

(** ** The regular-expression matcher *)
Section RegexpFacts.
Import regexp.

Implicit Types (r : Regexp) (s : list ascii) (c : ascii).

Lemma Matches_nil_nullable r s : Matches r s -> s = [] -> nullable r = true.
Proof.
  induction 1 as [ | | r1 r2 s1 s2 _ IH1 _ IH2 | r1 r2 s _ IH | r1 r2 s _ IH
                 | | | r s1 s2 _ IH1 _ _ ]; intros Hnil; simpl; try done.
  - apply app_eq_nil in Hnil as [-> ->]. by rewrite IH1, IH2.
  - by rewrite IH.
  - rewrite IH by done. apply orb_true_r.
  - apply app_eq_nil in Hnil as [-> _]. by apply IH1.
Qed.

Lemma nullable_Matches_nil r : nullable r = true -> Matches r [].
Proof.
  induction r as [ | | p | r1 IH1 r2 IH2 | r1 IH1 r2 IH2 | r IH | r IH ];
    simpl; intros Hn; try done.
  - constructor.
  - apply andb_true_iff in Hn as [H1 H2].
    change (@nil ascii) with (@nil ascii ++ []). constructor; auto.
  - apply orb_true_iff in Hn as [H1|H2]; [apply MAltL|apply MAltR]; auto.
  - constructor.
  - change (@nil ascii) with (@nil ascii ++ []). constructor; [auto|constructor].
Qed.

Lemma Matches_cons_derive r s' :
  Matches r s' -> ∀ c s, s' = c :: s -> Matches (derive c r) s.
Proof.
  induction 1 as [ | p c0 Hp | r1 r2 s1 s2 H1 IH1 H2 IH2 | r1 r2 s0 _ IH | r1 r2 s0 _ IH
                 | | r s1 s2 H1 IH1 H2 IH2 | r s1 s2 H1 IH1 H2 IH2 ];
    intros c s Hs; simpl; try done.
  - injection Hs as -> <-. rewrite Hp. constructor.
  - destruct s1 as [|c1 s1]; simpl in Hs.
    + rewrite (Matches_nil_nullable _ _ H1 eq_refl). apply MAltR. by apply IH2.
    + injection Hs as -> <-.
      destruct (nullable r1); [apply MAltL|]; constructor; auto.
  - apply MAltL. by apply IH.
  - apply MAltR. by apply IH.
  - destruct s1 as [|c1 s1]; simpl in Hs.
    + by apply IH2.
    + injection Hs as -> <-. constructor; auto.
  - destruct s1 as [|c1 s1]; simpl in Hs.
    + by apply IH2.
    + injection Hs as -> <-. constructor; auto.
Qed.

Lemma derive_Matches_cons r c s : Matches (derive c r) s -> Matches r (c :: s).
Proof.
  revert s;
    induction r as [ | | p | r1 IH1 r2 IH2 | r1 IH1 r2 IH2 | r IH | r IH ];
    simpl; intros s Hm.
  - inversion Hm.
  - inversion Hm.
  - destruct (p c) eqn:Hp; inversion Hm; subst. by constructor.
  - assert (∀ t, Matches (Concat (derive c r1) r2) t -> Matches (Concat r1 r2) (c :: t))
      as Hcat.
    { intros t Ht. inversion Ht; subst.
      change (c :: s1 ++ s2) with ((c :: s1) ++ s2). constructor; auto. }
    destruct (nullable r1) eqn:Hn; [|by apply Hcat].
    inversion Hm; subst; [by apply Hcat|].
    change (c :: s) with ([] ++ c :: s). constructor; [|auto].
    by apply nullable_Matches_nil.
  - inversion Hm; subst; [apply MAltL|apply MAltR]; auto.
  - inversion Hm; subst.
    change (c :: s1 ++ s2) with ((c :: s1) ++ s2). constructor; auto.
  - inversion Hm; subst.
    change (c :: s1 ++ s2) with ((c :: s1) ++ s2). constructor; auto.
Qed.

(** The derivative matcher decides the language. *)
Lemma matchBytes_Matches r s : matchBytes r s = true <-> Matches r s.
Proof.
  revert r; induction s as [|c rest IH]; intros r; simpl.
  - split; [apply nullable_Matches_nil|]. intros Hm. by eapply Matches_nil_nullable.
  - rewrite IH. split; [apply derive_Matches_cons|].
    intros Hm. by eapply Matches_cons_derive.
Qed.

Lemma Matches_Star_class (p : ascii -> bool) s :
  Matches (Star (CharClass p)) s <-> forallb p s = true.
Proof.
  split.
  - intros Hm. remember (Star (CharClass p)) as r eqn:Hr.
    induction Hm as [ | | | | | | r0 s1 s2 H1 _ _ IH2 | ]; try done.
    injection Hr as ->. inversion H1; subst. simpl.
    rewrite IH2 by done. by rewrite andb_true_r.
  - induction s as [|c rest IH]; simpl; intros Hall; [constructor|].
    apply andb_true_iff in Hall as [Hc Hrest].
    change (c :: rest) with ([c] ++ rest). constructor; [by constructor|auto].
Qed.

Lemma Matches_Plus_class (p : ascii -> bool) s :
  Matches (Plus (CharClass p)) s <-> s ≠ [] ∧ forallb p s = true.
Proof.
  split.
  - intros Hm. inversion Hm as [ | | | | | | | r0 s1 s2 H1 H2 ]; subst.
    inversion H1; subst. apply Matches_Star_class in H2. simpl.
    split; [done|]. by rewrite H2, andb_true_r.
  - intros [Hne Hall]. destruct s as [|c rest]; [done|]. simpl in Hall.
    apply andb_true_iff in Hall as [Hc Hrest].
    change (c :: rest) with ([c] ++ rest). constructor; [by constructor|].
    by apply Matches_Star_class.
Qed.

Lemma Matches_Literal c s : Matches (Literal c) s <-> s = [c].
Proof.
  unfold Literal. split.
  - intros Hm. inversion Hm as [ | p c' Hc | | | | | | ]; subst.
    apply Ascii.eqb_eq in Hc. by subst.
  - intros ->. constructor. apply Ascii.eqb_refl.
Qed.

End RegexpFacts.

(** ** The address normaliser *)
Section AddressFacts.
Import regexp.

Implicit Types (s w : list ascii) (c : ascii) (address : string).

Lemma spanWord_split s w rest :
  spanWord s = (w, rest) ->
  s = w ++ rest ∧ forallb isWordChar w = true ∧ headNotWord rest.
Proof.
  revert w rest; induction s as [|c tail IH]; simpl; intros w rest Hspan.
  - by injection Hspan as <- <-.
  - destruct (isWordChar c) eqn:Hc.
    + destruct (spanWord tail) as [w' rest'] eqn:Htail. injection Hspan as <- <-.
      destruct (IH _ _ eq_refl) as (-> & Hall & Hhead).
      simpl. by rewrite Hc, Hall.
    + injection Hspan as <- <-. simpl. by rewrite Hc.
Qed.

Lemma spanWord_app w rest :
  forallb isWordChar w = true -> headNotWord rest -> spanWord (w ++ rest) = (w, rest).
Proof.
  induction w as [|c w IH]; simpl; intros Hall Hhead.
  - destruct rest as [|c rest]; [done|]. simpl in *. by rewrite Hhead.
  - apply andb_true_iff in Hall as [Hc Hall]. by rewrite Hc, IH.
Qed.

Lemma Matches_scheme s :
  Matches (Concat (Plus (CharClass isWordChar))
             (Concat (Literal ":") (Concat (Literal "/") (Literal "/")))) s
  <-> ∃ w, s = w ++ [":"; "/"; "/"]%char ∧ w ≠ [] ∧ forallb isWordChar w = true.
Proof.
  split.
  - intros Hm. inversion Hm as [ | | r1 r2 w t Hw Ht | | | | | ]; subst.
    inversion Ht as [ | | r1 r2 t1 t' H1 Ht' | | | | | ]; subst.
    inversion Ht' as [ | | r1 r2 t2 t3 H2 H3 | | | | | ]; subst.
    apply Matches_Literal in H1, H2, H3. subst.
    apply Matches_Plus_class in Hw as [Hne Hall]. by exists w.
  - intros (w & -> & Hne & Hall). constructor; [by apply Matches_Plus_class|].
    change [":"; "/"; "/"]%char with ([":"] ++ (["/"] ++ ["/"]))%char.
    repeat constructor; apply Ascii.eqb_refl.
Qed.

Lemma schemeAndRest_inv s :
  schemeAndRest s = true ->
  ∃ w c rest, s = w ++ [":"; "/"; "/"]%char ++ c :: rest
              ∧ w ≠ [] ∧ forallb isWordChar w = true
              ∧ forallb notSpaceChar (c :: rest) = true.
Proof.
  unfold schemeAndRest. destruct (spanWord s) as [w tail] eqn:Hspan.
  apply spanWord_split in Hspan as (-> & Hall & _).
  destruct w as [|c0 w]; [done|].
  destruct tail as [|c1 tail]; [done|].
  destruct (Ascii.eqb_spec c1 ":") as [->|]; [|by destruct c1 as [[] [] [] [] [] [] [] []]].
  destruct tail as [|c2 tail]; [done|].
  destruct (Ascii.eqb_spec c2 "/") as [->|]; [|by destruct c2 as [[] [] [] [] [] [] [] []]].
  destruct tail as [|c3 tail]; [done|].
  destruct (Ascii.eqb_spec c3 "/") as [->|]; [|by destruct c3 as [[] [] [] [] [] [] [] []]].
  destruct tail as [|c4 tail]; [done|].
  intros Hfree. by exists (c0 :: w), c4, tail.
Qed.

(** The pattern of the code accepts exactly the texts that are a
    non-empty run of word characters, [://], and a non-empty rest free
    of white space. *)
Lemma uriPattern_schemeAndRest s :
  matchBytes uriPattern s = schemeAndRest s.
Proof.
  apply eq_true_iff_eq. rewrite matchBytes_Matches. unfold uriPattern. split.
  - intros Hm. inversion Hm as [ | | r1 r2 t rest Ht Hrest | | | | | ]; subst.
    apply Matches_scheme in Ht as (w & -> & Hne & Hall).
    apply Matches_Plus_class in Hrest as [Hne' Hfree].
    unfold schemeAndRest. rewrite <- app_assoc.
    rewrite spanWord_app by done. simpl.
    destruct w as [|c0 w]; [done|]. by destruct rest as [|c1 rest].
  - intros Hs. apply schemeAndRest_inv in Hs as (w & c & rest & -> & Hne & Hall & Hfree).
    rewrite app_assoc. constructor.
    + apply Matches_scheme. by exists w.
    + by apply Matches_Plus_class.
Qed.

Lemma isWordChar_notSpaceChar c : isWordChar c = true -> notSpaceChar c = true.
Proof. by destruct c as [[] [] [] [] [] [] [] []]. Qed.

Lemma schemeAndRest_spaceFree s :
  schemeAndRest s = true -> s ≠ [] ∧ forallb notSpaceChar s = true.
Proof.
  intros Hs. apply schemeAndRest_inv in Hs as (w & c & rest & -> & Hne & Hall & Hfree).
  split; [by destruct w|].
  rewrite !forallb_app. rewrite Hfree. rewrite andb_true_r.
  apply forallb_forall. intros c' Hc. apply isWordChar_notSpaceChar.
  by apply (proj1 (forallb_forall _ _) Hall).
Qed.

(** The scheme [tcp://] put in front of a text is accepted exactly when
    the text is non-empty and free of white space. *)
Lemma schemeAndRest_tcp s :
  schemeAndRest ("t" :: "c" :: "p" :: ":" :: "/" :: "/" :: s)%char
  = match s with [] => false | _ :: _ => forallb notSpaceChar s end.
Proof.
  unfold schemeAndRest.
  change ("t" :: "c" :: "p" :: ":" :: "/" :: "/" :: s)%char
    with (["t"; "c"; "p"] ++ ":" :: "/" :: "/" :: s)%char.
  rewrite spanWord_app by done. by destruct s.
Qed.

Lemma MatchString_uriPattern address :
  MatchString uriPattern address = schemeAndRest (list_ascii_of_string address).
Proof. apply uriPattern_schemeAndRest. Qed.

Lemma append_tcp_neq address : "tcp://" +:+ ("tcp://" +:+ address) ≠ "tcp://" +:+ address.
Proof.
  intros Heq. apply (f_equal String.length) in Heq. simpl in Heq. lia.
Qed.

(** [C5], as amended.  [asTCPAddress] returns the string unchanged
    when the whole string matches [^(\w+://)[^\s]+$], that is, when it
    is a non-empty run of word characters, then [://], then at least
    one more character, none of them white space; otherwise it returns
    the string with [tcp://] put in front. *)
Theorem asTCPAddress_cases address :
  asTCPAddress address
  = if schemeAndRest (list_ascii_of_string address) then address
    else "tcp://" +:+ address.
Proof. unfold asTCPAddress. by rewrite MatchString_uriPattern. Qed.

(** [C6], as amended.  [asTCPAddress] is idempotent on the non-empty
    strings free of white space, and on no other string:
    [asTCPAddress (asTCPAddress x) = asTCPAddress x] holds if and only
    if [x] is non-empty and has no white-space character. *)
Theorem asTCPAddress_idempotent_iff address :
  (address ≠ "" ∧ spaceFree address = true)
  <-> asTCPAddress (asTCPAddress address) = asTCPAddress address.
Proof.
  unfold asTCPAddress at 2 3. rewrite MatchString_uriPattern. unfold spaceFree.
  destruct (schemeAndRest (list_ascii_of_string address)) eqn:Hmatch.
  - unfold asTCPAddress. rewrite MatchString_uriPattern, Hmatch.
    split; [done|]. intros _.
    apply schemeAndRest_spaceFree in Hmatch as [Hne Hfree].
    split; [|done]. by intros ->.
  - unfold asTCPAddress. rewrite MatchString_uriPattern.
    change (list_ascii_of_string ("tcp://" +:+ address))
      with ("t" :: "c" :: "p" :: ":" :: "/" :: "/" :: list_ascii_of_string address)%char.
    rewrite schemeAndRest_tcp.
    destruct address as [|c rest]; simpl.
    + split; [by intros [? _]|]. intros Heq. by destruct (append_tcp_neq "").
    + destruct (notSpaceChar c && forallb notSpaceChar (list_ascii_of_string rest)).
      * done.
      * split; [by intros [_ ?]|]. intros Heq. by destruct (append_tcp_neq (String c rest)).
Qed.

End AddressFacts.

(** ** Random bytes and strings *)
Section RandomFacts.
Context `{R : runtime.Limits}.

Implicit Types (src : EntropySource) (b acc : list Z) (n : Z).

(** The allocation returns exactly for the lengths from 0 to
    [maxAlloc] that the heap can grant. *)
Lemma makeBytes_returned n :
  0 <= n <= runtime.maxAlloc -> n <= runtime.heapFree ->
  makeBytes n = Returned (repeat 0 (Z.to_nat n)).
Proof.
  intros Hn Hheap. unfold makeBytes.
  destruct (Z.ltb_spec n 0) as [|_]; [lia|].
  destruct (Z.ltb_spec runtime.maxAlloc n) as [|_]; [lia|]. simpl.
  by destruct (Z.ltb_spec runtime.heapFree n) as [|_]; [lia|].
Qed.

Lemma makeBytes_out_of_range n :
  n < 0 ∨ runtime.maxAlloc < n -> makeBytes n = Panicked MakeSliceLenOutOfRange.
Proof.
  intros Hn. unfold makeBytes.
  destruct (Z.ltb_spec n 0) as [|Hpos]; [done|].
  by destruct (Z.ltb_spec runtime.maxAlloc n) as [|Hle]; [|lia].
Qed.

Lemma makeBytes_out_of_memory n :
  0 <= n <= runtime.maxAlloc -> runtime.heapFree < n ->
  makeBytes n = Panicked FatalOutOfMemory.
Proof.
  intros Hn Hheap. unfold makeBytes.
  destruct (Z.ltb_spec n 0) as [|_]; [lia|].
  destruct (Z.ltb_spec runtime.maxAlloc n) as [|_]; [lia|]. simpl.
  by destruct (Z.ltb_spec runtime.heapFree n) as [_|]; [|lia].
Qed.

Lemma makeBytes_inv n b :
  makeBytes n = Returned b ->
  0 <= n <= runtime.maxAlloc ∧ n <= runtime.heapFree ∧ b = repeat 0 (Z.to_nat n).
Proof.
  unfold makeBytes.
  destruct (Z.ltb_spec n 0) as [|Hpos]; [done|].
  destruct (Z.ltb_spec runtime.maxAlloc n) as [|Hle]; [done|]. simpl.
  destruct (Z.ltb_spec runtime.heapFree n) as [|Hheap]; [done|].
  intros [= <-]. split; [lia|]. by split.
Qed.

Lemma acceptableRange_94 : acceptableRange = 94.
Proof. reflexivity. Qed.

Lemma acceptableByte_band (x : Z) :
  acceptableByte x = x mod 94 + 33 ∧ 33 <= acceptableByte x <= 126.
Proof.
  unfold acceptableByte. rewrite acceptableRange_94. unfold lowerBound.
  pose proof (Z.mod_pos_bound x 94 ltac:(lia)) as Hx.
  rewrite (Z.mod_small (x mod 94 + 33) 256) by lia. lia.
Qed.

Lemma mapAcceptable_map b acc : mapAcceptable b acc = acc ++ map acceptableByte b.
Proof.
  revert acc; induction b as [|x rest IH]; intros acc; simpl.
  - by rewrite app_nil_r.
  - rewrite IH. by rewrite <- app_assoc.
Qed.

Lemma string_of_list_ascii_length (l : list ascii) :
  String.length (string_of_list_ascii l) = List.length l.
Proof. induction l as [|c l IH]; simpl; congruence. Qed.

Lemma string_of_list_ascii_get (l : list ascii) (i : nat) :
  String.get i (string_of_list_ascii l) = nth_error l i.
Proof.
  revert i; induction l as [|c l IH]; intros [|i]; simpl; auto.
Qed.

(** The bytes the entropy source delivers for a buffer of [n] bytes. *)
Lemma GenerateRandomBytes_returned src n :
  0 <= n <= runtime.maxAlloc -> n <= runtime.heapFree -> randErr src = None ->
  GenerateRandomBytes src n
  = Returned (map (fun i => randByte src i mod 256) (seq 0 (Z.to_nat n)), None).
Proof.
  intros Hn Hheap Hsrc. unfold GenerateRandomBytes, randRead.
  rewrite (makeBytes_returned n Hn Hheap). by rewrite Hsrc, repeat_length.
Qed.

Lemma GenerateRandomBytes_out_of_range src n :
  n < 0 ∨ runtime.maxAlloc < n ->
  GenerateRandomBytes src n = Panicked MakeSliceLenOutOfRange.
Proof.
  intros Hn. unfold GenerateRandomBytes. by rewrite (makeBytes_out_of_range n Hn).
Qed.

(** When [GenerateRandomBytes] returns bytes and no error, the length
    was not negative, the entropy source did not fail, and there are
    as many bytes as were asked for. *)
Lemma GenerateRandomBytes_inv src n b :
  GenerateRandomBytes src n = Returned (b, None) ->
  0 <= n ∧ randErr src = None ∧ Z.of_nat (List.length b) = n.
Proof.
  unfold GenerateRandomBytes, randRead.
  destruct (makeBytes n) as [buf|k] eqn:Hmake; [|done].
  apply makeBytes_inv in Hmake as (Hn & _ & ->).
  destruct (randErr src) as [e|]; [done|]. intros [= <-].
  rewrite length_map, length_seq, repeat_length.
  split; [lia|]. split; [done|]. lia.
Qed.

(** [C7]  For every length [n] for which the entropy source succeeds,
    that is, for which [GenerateRandomBytes] gets its bytes [b] and no
    error, [GenerateRandomString] returns without error a string of
    exactly [n] characters; its [i]-th character has the code
    [b[i] mod 94 + 33], so every character code lies in the range from
    33 to 126, both included. *)
Theorem GenerateRandomString_printable src n b :
  GenerateRandomBytes src n = Returned (b, None) ->
  ∃ str,
    GenerateRandomString src n = Returned (str, None)
    ∧ Z.of_nat (String.length str) = n
    ∧ (∀ i byte, nth_error b i = Some byte ->
         ∃ c, String.get i str = Some c
              ∧ Z.of_nat (nat_of_ascii c) = byte mod 94 + 33)
    ∧ (∀ i c, String.get i str = Some c -> 33 <= Z.of_nat (nat_of_ascii c) <= 126).
Proof.
  intros Hb. unfold GenerateRandomString. rewrite Hb.
  apply GenerateRandomBytes_inv in Hb as (_ & _ & Hlen).
  exists (stringOfBytes (mapAcceptable b [])).
  rewrite mapAcceptable_map. simpl. unfold stringOfBytes.
  split; [done|]. split; [|split].
  - by rewrite string_of_list_ascii_length, !length_map.
  - intros i byte Hi. rewrite string_of_list_ascii_get.
    rewrite !nth_error_map, Hi. simpl. eexists; split; [done|].
    destruct (acceptableByte_band byte) as [Heq Hband].
    rewrite nat_ascii_embedding by lia. lia.
  - intros i c. rewrite string_of_list_ascii_get, !nth_error_map.
    destruct (nth_error b i) as [byte|]; simpl; [|done]. intros [= <-].
    destruct (acceptableByte_band byte) as [Heq Hband].
    rewrite nat_ascii_embedding by lia. lia.
Qed.

(** [C10], as amended.  Both operations are defined only for the
    lengths from 0 to the runtime's allocation limit [maxAlloc] that
    the heap can grant.  For such an [n] the allocation gives a slice
    of [n] bytes, and when the entropy source does not fail
    [GenerateRandomBytes] returns exactly [n] bytes and no error.  For
    [n < 0] and for [n > maxAlloc] the allocation panics with
    "makeslice: len out of range", and with it both
    [GenerateRandomBytes] and [GenerateRandomString]; for a length
    within the limit that the heap cannot grant the process ends.  In
    no such case is an error value returned. *)
Theorem random_length_precondition src n :
  (0 <= n <= runtime.maxAlloc -> n <= runtime.heapFree ->
     (∃ b, makeBytes n = Returned b ∧ Z.of_nat (List.length b) = n)
     ∧ (randErr src = None ->
        ∃ b, GenerateRandomBytes src n = Returned (b, None)
             ∧ Z.of_nat (List.length b) = n))
  ∧ (n < 0 ∨ runtime.maxAlloc < n ->
     makeBytes n = Panicked MakeSliceLenOutOfRange
     ∧ GenerateRandomBytes src n = Panicked MakeSliceLenOutOfRange
     ∧ GenerateRandomString src n = Panicked MakeSliceLenOutOfRange)
  ∧ (0 <= n <= runtime.maxAlloc -> runtime.heapFree < n ->
     makeBytes n = Panicked FatalOutOfMemory
     ∧ GenerateRandomBytes src n = Panicked FatalOutOfMemory
     ∧ GenerateRandomString src n = Panicked FatalOutOfMemory).
Proof.
  split; [|split].
  - intros Hn Hheap. split.
    + rewrite (makeBytes_returned n Hn Hheap).
      eexists; split; [done|]. rewrite repeat_length. lia.
    + intros Hsrc. rewrite (GenerateRandomBytes_returned src n Hn Hheap Hsrc).
      eexists; split; [done|]. rewrite length_map, length_seq. lia.
  - intros Hn. unfold GenerateRandomString.
    rewrite (GenerateRandomBytes_out_of_range src n Hn).
    by rewrite (makeBytes_out_of_range n Hn).
  - intros Hn Hheap. unfold GenerateRandomString, GenerateRandomBytes.
    by rewrite (makeBytes_out_of_memory n Hn Hheap).
Qed.

End RandomFacts.

(** ** The model at concrete inputs *)
Section Evaluation.
Import sample.

(** The example of the specification for the updater. *)
Example updateSyncthingDevices_example :
  updateSyncthingDevices [peerA] (Some agentSelfB)
  = {| agentAfter :=
         Some {| api.SystemStatusMyID := "SELF";
                 api.Configuration :=
                   {| config.Devices :=
                        [selfDevice; device "B" ["10.0.0.3:22000"] "A";
                         device "A" ["10.0.0.2:22000"] ""];
                      config.Folders :=
                        [ {| config.FolderID := "data";
                             config.FolderDevices := ["SELF"; "B"; "A"] |} ] |} |};
       shareCalls := [[selfDevice; device "B" ["10.0.0.3:22000"] "A";
                       device "A" ["10.0.0.2:22000"] ""]];
       returnedErr := None |}.
Proof. reflexivity. Qed.

Lemma updateSyncthingDevices_device_list_witness :
  returnedErr (updateSyncthingDevices [peerA] (Some agentSelfB)) = None
  ∧ ∃ s', agentAfter (updateSyncthingDevices [peerA] (Some agentSelfB)) = Some s'
          ∧ config.Devices (api.Configuration s')
            = carried agentSelfB ++ map deviceOfPeer [peerA].
Proof.
  split; [reflexivity|].
  destruct (updateSyncthingDevices_device_list [peerA] agentSelfB eq_refl)
    as (s' & Hafter & Hdevices & _).
  exists s'. split; [exact Hafter|exact Hdevices].
Defined.

(** A desired list that names the same peer twice parses, the call
    returns no error, and the device list it leaves has the identifier
    twice. *)
Lemma updateSyncthingDevices_duplicate_identifiers :
  returnedErr (updateSyncthingDevices [peerA; peerA] (Some (agent [selfDevice]))) = None
  ∧ ∃ s', agentAfter (updateSyncthingDevices [peerA; peerA] (Some (agent [selfDevice])))
          = Some s'
          ∧ ¬ NoDup (map config.DeviceID (config.Devices (api.Configuration s'))).
Proof.
  split; [reflexivity|]. eexists. split; [reflexivity|]. simpl.
  intros Hnd. apply NoDup_cons in Hnd as [_ Hnd]. apply NoDup_cons in Hnd as [Hnot _].
  apply Hnot. apply list_elem_of_here.
Qed.

Lemma updateSyncthingDevices_all_or_nothing_witness :
  ∃ e, updateSyncthingDevices [peerA; peer "not an id" ""] (Some agentSelfB)
       = {| agentAfter := Some agentSelfB; shareCalls := []; returnedErr := Some e |}.
Proof.
  apply (updateSyncthingDevices_all_or_nothing [peerA; peer "not an id" ""]
           (Some agentSelfB)).
  apply Exists_cons_tl, Exists_cons_hd. unfold parses. simpl. discriminate.
Defined.

Lemma agentSelfBC_addressesPresent :
  addressesPresent (api.MyID agentSelfBC) (config.Devices (api.Configuration agentSelfBC)).
Proof.
  intros d Hd. simpl in Hd. destruct Hd as [<-|[]]. simpl. discriminate.
Defined.

(** The example of the specification for the comparator: [A] is
    desired and absent from the directly managed devices. *)
Example syncthingNeedsReconfigure_example :
  syncthingNeedsReconfigure [peerA] (Some agentSelfB) = Returned true.
Proof. by vm_compute. Qed.

Lemma syncthingNeedsReconfigure_key_sets_witness :
  ∃ currentDevs,
    addCurrentDevices "SELF" (config.Devices (api.Configuration agentSelfBC))
      (selfEntry "SELF") = Returned currentDevs
    ∧ dom currentDevs = currentKeys "SELF" (config.Devices (api.Configuration agentSelfBC))
    ∧ (syncthingNeedsReconfigure [peerA] (Some agentSelfBC) = Returned true
       <-> dom (addNodeList "SELF" [peerA] (selfEntry "SELF")) ≠ dom currentDevs).
Proof.
  destruct (syncthingNeedsReconfigure_key_sets [peerA] agentSelfBC
              agentSelfBC_addressesPresent)
    as (cur & Hcur & _ & Hdom & Htrue & _).
  exists cur. split; [exact Hcur|]. split; [exact Hdom|exact Htrue].
Defined.

(** A directly managed device without an address: the key sets of the
    two maps differ ([B] is current and not desired), and the call does
    not return [true]; it panics on the first-address access. *)
Lemma syncthingNeedsReconfigure_no_address :
  desiredKeys "SELF" [] ≠ currentKeys "SELF" (config.Devices (api.Configuration agentNoAddress))
  ∧ syncthingNeedsReconfigure [] (Some agentNoAddress) = Panicked IndexOutOfRange
  ∧ syncthingNeedsReconfigure [] (Some agentNoAddress) ≠ Returned true.
Proof.
  split; [|split; [reflexivity|discriminate]].
  intros Heq.
  assert ("B" ∈ currentKeys "SELF" (config.Devices (api.Configuration agentNoAddress)))
    as Hin.
  { unfold currentKeys, managedIDs. simpl. set_solver. }
  rewrite <- Heq in Hin. unfold desiredKeys in Hin. simpl in Hin.
  apply elem_of_union in Hin as [Hin|Hin].
  - by apply elem_of_singleton in Hin.
  - by apply elem_of_empty in Hin.
Qed.

Lemma syncthingNeedsReconfigure_ignores_introduced_witness :
  syncthingNeedsReconfigure [peerA]
    (Some {| api.SystemStatusMyID := "SELF";
             api.Configuration :=
               {| config.Devices :=
                    [selfDevice] ++ device "B" ["10.0.0.3:22000"] "A"
                                 :: [device "C" ["10.0.0.4:22000"] ""];
                  config.Folders := [] |} |})
  = syncthingNeedsReconfigure [peerA]
      (Some {| api.SystemStatusMyID := "SELF";
               api.Configuration :=
                 {| config.Devices := [selfDevice] ++ [device "C" ["10.0.0.4:22000"] ""];
                    config.Folders := [] |} |}).
Proof.
  apply (syncthingNeedsReconfigure_ignores_introduced [peerA] "SELF" []
           [selfDevice] [device "C" ["10.0.0.4:22000"] ""]
           (device "B" ["10.0.0.3:22000"] "A")).
  simpl. discriminate.
Defined.

Lemma syncthingNeedsReconfigure_total_witness :
  ∃ b, syncthingNeedsReconfigure [peerA] (Some agentSelfBC) = Returned b.
Proof.
  apply (proj1 (syncthingNeedsReconfigure_total_iff_valid [peerA] agentSelfBC)).
  exact agentSelfBC_addressesPresent.
Defined.

(** The examples of the specification for the address normaliser. *)
Example asTCPAddress_quic : asTCPAddress "quic://1.2.3.4:22000" = "quic://1.2.3.4:22000".
Proof. reflexivity. Qed.

Example asTCPAddress_bare : asTCPAddress "1.2.3.4:22000" = "tcp://1.2.3.4:22000".
Proof. reflexivity. Qed.

(** A scheme with nothing after it matches [^\w+://] and is not
    returned unchanged. *)
Lemma asTCPAddress_bare_scheme :
  regexp.MatchString schemePrefixPattern "tcp://" = true
  ∧ asTCPAddress "tcp://" = "tcp://tcp://"
  ∧ asTCPAddress "tcp://" ≠ "tcp://".
Proof. split; [reflexivity|]. split; [reflexivity|discriminate]. Qed.

(** On the empty string a second application adds a second scheme. *)
Lemma asTCPAddress_not_idempotent :
  asTCPAddress "" = "tcp://"
  ∧ asTCPAddress (asTCPAddress "") = "tcp://tcp://"
  ∧ asTCPAddress (asTCPAddress "") ≠ asTCPAddress "".
Proof. split; [reflexivity|]. split; [reflexivity|discriminate]. Qed.

Lemma asTCPAddress_idempotent_witness :
  asTCPAddress (asTCPAddress "1.2.3.4:22000") = asTCPAddress "1.2.3.4:22000".
Proof.
  apply (proj1 (asTCPAddress_idempotent_iff "1.2.3.4:22000")).
  split; [discriminate|reflexivity].
Defined.

Example GenerateRandomString_example :
  GenerateRandomString (entropy [0; 94; 255]) 3 = Returned ("!!d", None).
Proof. reflexivity. Qed.

Lemma GenerateRandomString_printable_witness :
  GenerateRandomBytes (entropy [0; 94; 255]) 3 = Returned ([0; 94; 255], None)
  ∧ ∃ str,
      GenerateRandomString (entropy [0; 94; 255]) 3 = Returned (str, None)
      ∧ Z.of_nat (String.length str) = 3.
Proof.
  assert (GenerateRandomBytes (entropy [0; 94; 255]) 3 = Returned ([0; 94; 255], None))
    as Hbytes by (vm_compute; reflexivity).
  split; [exact Hbytes|].
  destruct (GenerateRandomString_printable (entropy [0; 94; 255]) 3 [0; 94; 255] Hbytes)
    as (str & Hstr & Hlen & _).
  exists str. split; [exact Hstr|exact Hlen].
Defined.

Lemma random_length_precondition_witness :
  (∃ b, GenerateRandomBytes (entropy [0; 94; 255]) 3 = Returned (b, None)
        ∧ Z.of_nat (List.length b) = 3)
  ∧ GenerateRandomString (entropy []) (-1) = Panicked MakeSliceLenOutOfRange.
Proof.
  split.
  - apply (proj1 (random_length_precondition (entropy [0; 94; 255]) 3));
      [vm_compute; split; discriminate|vm_compute; discriminate|reflexivity].
  - apply (proj1 (proj2 (random_length_precondition (entropy []) (-1)))). left. lia.
Defined.

(** A length that is not negative and above the allocation limit: the
    allocation does not succeed, it panics, on linux/amd64 at 2^62. *)
Lemma random_length_above_limit :
  0 <= 2 ^ 62
  ∧ makeBytes (2 ^ 62) = Panicked MakeSliceLenOutOfRange
  ∧ GenerateRandomBytes (entropy []) (2 ^ 62) = Panicked MakeSliceLenOutOfRange
  ∧ GenerateRandomString (entropy []) (2 ^ 62) = Panicked MakeSliceLenOutOfRange.
Proof. split; [by vm_compute|]. split; [|split]; reflexivity. Qed.

End Evaluation.

(** * Further properties of the reconciliation *)
Section ReconciliationFacts.
Context `{L : protocol.Lib}.

Implicit Types (peerList nodeList : list v1alpha1.SyncthingPeer)
               (devices before after : list config.DeviceConfiguration)
               (s : api.Syncthing) (myID : string).

Lemma addressesPresentb_true myID devices :
  addressesPresentb myID devices = true <-> addressesPresent myID devices.
Proof.
  unfold addressesPresentb, addressesPresent. rewrite forallb_forall.
  split; intros Hall d Hd; specialize (Hall d Hd); by destruct (config.Addresses d).
Qed.

(** The outcome of the comparator on a non-nil handle, in one formula. *)
Lemma syncthingNeedsReconfigure_outcome nodeList s :
  syncthingNeedsReconfigure nodeList (Some s)
  = if addressesPresentb (api.MyID s) (config.Devices (api.Configuration s))
    then Returned (bool_decide
                     (desiredKeys (api.MyID s) nodeList
                      ≠ currentKeys (api.MyID s) (config.Devices (api.Configuration s))))
    else Panicked IndexOutOfRange.
Proof.
  destruct (addressesPresentb _ _) eqn:Hb.
  - apply syncthingNeedsReconfigure_returned. by apply addressesPresentb_true.
  - unfold syncthingNeedsReconfigure. rewrite addCurrentDevices_panics; [done|].
    intros Hok. apply addressesPresentb_true in Hok. congruence.
Qed.

Lemma managedDevices_app myID before after :
  managedDevices myID (before ++ after)
  = managedDevices myID before ++ managedDevices myID after.
Proof. unfold managedDevices. apply List.filter_app. Qed.

(** What a successful call of the updater leaves behind. *)
Lemma updateSyncthingDevices_success peerList s :
  returnedErr (updateSyncthingDevices peerList (Some s)) = None ->
  agentAfter (updateSyncthingDevices peerList (Some s))
  = Some (api.ShareFoldersWithDevices (carried s ++ map deviceOfPeer peerList)
            (api.setDevices (carried s ++ map deviceOfPeer peerList) s)).
Proof.
  intros Hok. apply updateSyncthingDevices_succeeds_iff in Hok.
  unfold updateSyncthingDevices.
  by rewrite (addPeers_all_parse _ _ Hok), carryForward_filter.
Qed.

Lemma carried_not_managed myID devices :
  managedDevices myID (List.filter (selfOrIntroduced myID) devices) = [].
Proof.
  unfold managedDevices. induction devices as [|d rest IH]; simpl; [done|].
  destruct (selfOrIntroduced myID d) eqn:Hd; simpl; [|done]. by rewrite Hd.
Qed.

Lemma carried_all_carried myID devices :
  List.filter (selfOrIntroduced myID) (List.filter (selfOrIntroduced myID) devices)
  = List.filter (selfOrIntroduced myID) devices.
Proof.
  induction devices as [|d rest IH]; simpl; [done|].
  destruct (selfOrIntroduced myID d) eqn:Hd; simpl; [|done]. by rewrite Hd, IH.
Qed.

Lemma updated_addressesPresent peerList s :
  addressesPresent (api.MyID s) (carried s ++ map deviceOfPeer peerList).
Proof.
  intros d. rewrite managedDevices_app. unfold carried.
  rewrite carried_not_managed. simpl. unfold managedDevices.
  intros Hd. apply filter_In in Hd as [Hd _].
  apply in_map_iff in Hd as (p & <- & _). done.
Qed.

(** [X1]  The error the updater returns is the error of the first peer
    of the list whose identifier does not parse: when the peers before
    [p] all parse and the parse of [p] gives the error [e], the call on
    a non-nil handle returns [e], whatever follows [p] in the list. *)
Theorem updateSyncthingDevices_first_error
    (good rest : list v1alpha1.SyncthingPeer) (p : v1alpha1.SyncthingPeer) (e : error) s :
  Forall parses good ->
  snd (protocol.DeviceIDFromString (v1alpha1.ID p)) = Some e ->
  returnedErr (updateSyncthingDevices (good ++ p :: rest) (Some s)) = Some e.
Proof.
  intros Hgood Hp. unfold updateSyncthingDevices.
  set (acc := carryForward _ _ _). clearbody acc.
  assert (addPeers (good ++ p :: rest) acc = inr e) as ->; [|done].
  revert acc; induction Hgood as [|q good Hq _ IH]; intros acc; simpl.
  - destruct (protocol.DeviceIDFromString (v1alpha1.ID p)) as [i o]. simpl in Hp.
    by subst o.
  - unfold parses in Hq.
    destruct (protocol.DeviceIDFromString (v1alpha1.ID q)) as [i o]. simpl in Hq.
    subst o. apply IH.
Qed.

(** [X2]  A successful update leaves an agent on which the comparator
    cannot panic: every device of the new list that is neither self nor
    introduced was built from a peer and has exactly one address, so the
    comparator returns a boolean for every node list, also when the
    agent had a device without address before the update. *)
Theorem updateSyncthingDevices_then_comparator_returns peerList nodeList s s' :
  returnedErr (updateSyncthingDevices peerList (Some s)) = None ->
  agentAfter (updateSyncthingDevices peerList (Some s)) = Some s' ->
  ∃ b, syncthingNeedsReconfigure nodeList (Some s') = Returned b.
Proof.
  intros Hok Hafter. rewrite (updateSyncthingDevices_success _ _ Hok) in Hafter.
  injection Hafter as <-. eexists.
  apply syncthingNeedsReconfigure_returned. simpl. apply updated_addressesPresent.
Qed.

(** [X3]  Updating converges: when the zero identifier prints as the
    empty string and every desired identifier is in the form in which
    the library prints it, then after a successful update the comparator
    called with the same peer list returns [false]. *)
Theorem updateSyncthingDevices_converges peerList s s' :
  protocol.GoString protocol.EmptyDeviceID = "" ->
  (∀ p, In p peerList ->
        protocol.GoString (fst (protocol.DeviceIDFromString (v1alpha1.ID p)))
        = v1alpha1.ID p) ->
  returnedErr (updateSyncthingDevices peerList (Some s)) = None ->
  agentAfter (updateSyncthingDevices peerList (Some s)) = Some s' ->
  syncthingNeedsReconfigure peerList (Some s') = Returned false.
Proof.
  intros Hzero Hcanon Hok Hafter. rewrite (updateSyncthingDevices_success _ _ Hok) in Hafter.
  injection Hafter as <-.
  rewrite syncthingNeedsReconfigure_returned by (simpl; apply updated_addressesPresent).
  f_equal. apply bool_decide_eq_false. intros Hne. apply Hne. simpl.
  unfold desiredKeys, currentKeys, managedIDs. f_equal.
  rewrite managedDevices_app. unfold carried at 1. rewrite carried_not_managed. simpl.
  assert (∀ p, In p peerList ->
            selfOrIntroduced (api.MyID s) (deviceOfPeer p)
            = String.eqb (v1alpha1.ID p) (api.MyID s)) as Hsel.
  { intros p Hp. unfold selfOrIntroduced, deviceOfPeer, stDeviceToAdd. simpl.
    rewrite (Hcanon p Hp), Hzero. simpl. apply orb_false_r. }
  unfold api.MyID in *. clear Hne.
  apply set_eq. intros k. rewrite !elem_of_list_to_set, list_elem_of_filter.
  rewrite !list_elem_of_In, !in_map_iff. unfold managedDevices. split.
  - intros (Hother & p & <- & Hp). exists (deviceOfPeer p). split.
    + unfold deviceOfPeer, stDeviceToAdd. simpl. by apply Hcanon.
    + apply filter_In. split; [apply in_map_iff; by exists p|].
      rewrite (Hsel p Hp). by apply negb_true_iff, String.eqb_neq.
  - intros (d & <- & Hd).
    apply filter_In in Hd as [Hd Hman]. apply in_map_iff in Hd as (p & <- & Hp).
    rewrite (Hsel p Hp) in Hman. apply negb_true_iff, String.eqb_neq in Hman.
    unfold deviceOfPeer, stDeviceToAdd. simpl. rewrite (Hcanon p Hp).
    split; [done|]. by exists p.
Qed.

(** [X4]  Updating twice changes nothing more: when the zero
    identifier prints as the empty string and no desired peer parses to
    the agent's own identifier, a second update with the same peer list
    succeeds as well and leaves the device list of the first. *)
Theorem updateSyncthingDevices_twice peerList s s' :
  protocol.GoString protocol.EmptyDeviceID = "" ->
  (∀ p, In p peerList ->
        protocol.GoString (fst (protocol.DeviceIDFromString (v1alpha1.ID p)))
        ≠ api.MyID s) ->
  returnedErr (updateSyncthingDevices peerList (Some s)) = None ->
  agentAfter (updateSyncthingDevices peerList (Some s)) = Some s' ->
  returnedErr (updateSyncthingDevices peerList (Some s')) = None
  ∧ ∃ s'', agentAfter (updateSyncthingDevices peerList (Some s')) = Some s''
           ∧ config.Devices (api.Configuration s'')
             = config.Devices (api.Configuration s').
Proof.
  intros Hzero Hother Hok Hafter.
  assert (returnedErr (updateSyncthingDevices peerList (Some s')) = None) as Hok'.
  { apply updateSyncthingDevices_succeeds_iff.
    by apply updateSyncthingDevices_succeeds_iff in Hok. }
  split; [done|]. rewrite (updateSyncthingDevices_success _ _ Hok').
  eexists. split; [done|].
  rewrite (updateSyncthingDevices_success _ _ Hok) in Hafter. injection Hafter as <-.
  simpl. f_equal. unfold carried. simpl. unfold api.MyID. simpl.
  rewrite List.filter_app, carried_all_carried.
  assert (List.filter (selfOrIntroduced (api.SystemStatusMyID s))
            (map deviceOfPeer peerList) = []) as ->; [|apply app_nil_r].
  induction peerList as [|p rest IH]; simpl; [done|].
  assert (selfOrIntroduced (api.SystemStatusMyID s) (deviceOfPeer p) = false) as ->.
  { unfold selfOrIntroduced, deviceOfPeer, stDeviceToAdd. simpl. rewrite Hzero. simpl.
    rewrite orb_false_r. apply String.eqb_neq. apply Hother. by left. }
  apply IH.
  - intros q Hq. apply Hother. by right.
  - apply updateSyncthingDevices_succeeds_iff.
    apply updateSyncthingDevices_succeeds_iff in Hok. by inversion Hok.
  - apply updateSyncthingDevices_succeeds_iff.
    apply updateSyncthingDevices_succeeds_iff in Hok. by inversion Hok.
Qed.

(** [X5]  The comparator looks at the desired list only through the set
    of its identifiers: two node lists with the same identifiers, in
    whatever order, with whatever repetitions, addresses and introducer
    flags, give the same outcome on every handle. *)
Theorem syncthingNeedsReconfigure_set_of_identifiers
    (nodeList1 nodeList2 : list v1alpha1.SyncthingPeer) (syncthing : option api.Syncthing) :
  (list_to_set (map v1alpha1.ID nodeList1) : gset string)
    = list_to_set (map v1alpha1.ID nodeList2) ->
  syncthingNeedsReconfigure nodeList1 syncthing
  = syncthingNeedsReconfigure nodeList2 syncthing.
Proof.
  intros Hsame. destruct syncthing as [s|]; [|done].
  rewrite !syncthingNeedsReconfigure_outcome.
  assert (desiredKeys (api.MyID s) nodeList1 = desiredKeys (api.MyID s) nodeList2) as ->;
    [|done].
  unfold desiredKeys. f_equal. apply set_eq. intros k.
  rewrite !elem_of_list_to_set, !list_elem_of_filter.
  rewrite <- !(elem_of_list_to_set (C := gset string)), Hsame. done.
Qed.

(** [X6]  A desired peer that carries the agent's own identifier is
    skipped: with it or without it, at any place of the node list, the
    outcome is the same. *)
Theorem syncthingNeedsReconfigure_skips_self_peer
    (front back : list v1alpha1.SyncthingPeer) (p : v1alpha1.SyncthingPeer) s :
  v1alpha1.ID p = api.MyID s ->
  syncthingNeedsReconfigure (front ++ p :: back) (Some s)
  = syncthingNeedsReconfigure (front ++ back) (Some s).
Proof.
  intros Hself. rewrite !syncthingNeedsReconfigure_outcome.
  assert (desiredKeys (api.MyID s) (front ++ p :: back)
          = desiredKeys (api.MyID s) (front ++ back)) as ->; [|done].
  unfold desiredKeys. f_equal. rewrite !map_app, !filter_app. simpl.
  by rewrite filter_cons_False by (by intros ?).
Qed.

(** [X7]  A current device that carries the agent's own identifier is
    skipped, with or without addresses: with it or without it, at any
    place of the device list, the outcome is the same. *)
Theorem syncthingNeedsReconfigure_skips_self_device
    nodeList myID (folders : list config.FolderConfiguration)
    before after (device : config.DeviceConfiguration) :
  protocol.GoString (config.DeviceID device) = myID ->
  syncthingNeedsReconfigure nodeList
    (Some {| api.SystemStatusMyID := myID;
             api.Configuration := {| config.Devices := before ++ device :: after;
                                     config.Folders := folders |} |})
  = syncthingNeedsReconfigure nodeList
      (Some {| api.SystemStatusMyID := myID;
               api.Configuration := {| config.Devices := before ++ after;
                                       config.Folders := folders |} |}).
Proof.
  intros Hself. unfold syncthingNeedsReconfigure, api.MyID. simpl.
  rewrite !addCurrentDevices_app.
  destruct (addCurrentDevices myID before (selfEntry myID)) as [m|k]; [|done].
  simpl. unfold selfOrIntroduced. apply String.eqb_eq in Hself. by rewrite Hself.
Qed.

(** [X8]  A desired peer that is new makes the comparator return
    [true]: on a handle whose managed devices all have an address, when
    some peer of the node list has an identifier that is neither the
    agent's own nor that of a managed device. *)
Theorem syncthingNeedsReconfigure_new_peer nodeList s (p : v1alpha1.SyncthingPeer) :
  addressesPresent (api.MyID s) (config.Devices (api.Configuration s)) ->
  In p nodeList ->
  v1alpha1.ID p ≠ api.MyID s ->
  ¬ In (v1alpha1.ID p) (managedIDs (api.MyID s) (config.Devices (api.Configuration s))) ->
  syncthingNeedsReconfigure nodeList (Some s) = Returned true.
Proof.
  intros Hok Hp Hother Hnew. rewrite (syncthingNeedsReconfigure_returned _ _ Hok).
  f_equal. apply bool_decide_eq_true. intros Heq.
  assert (v1alpha1.ID p ∈ desiredKeys (api.MyID s) nodeList) as Hin.
  { unfold desiredKeys. apply elem_of_union_r, elem_of_list_to_set, list_elem_of_filter.
    split; [done|]. apply list_elem_of_In, in_map_iff. by exists p. }
  rewrite Heq in Hin. unfold currentKeys in Hin.
  apply elem_of_union in Hin as [Hin|Hin].
  - by apply elem_of_singleton in Hin.
  - by apply elem_of_list_to_set, list_elem_of_In in Hin.
Qed.

(** [X9]  A managed device that is no longer desired makes the
    comparator return [true]: on a handle whose managed devices all have
    an address, when some current device that is neither self nor
    introduced has an identifier that no peer of the node list has. *)
Theorem syncthingNeedsReconfigure_dropped_device nodeList s
    (device : config.DeviceConfiguration) :
  addressesPresent (api.MyID s) (config.Devices (api.Configuration s)) ->
  In device (managedDevices (api.MyID s) (config.Devices (api.Configuration s))) ->
  ¬ In (protocol.GoString (config.DeviceID device)) (map v1alpha1.ID nodeList) ->
  syncthingNeedsReconfigure nodeList (Some s) = Returned true.
Proof.
  intros Hok Hd Hgone. rewrite (syncthingNeedsReconfigure_returned _ _ Hok).
  f_equal. apply bool_decide_eq_true. intros Heq.
  assert (protocol.GoString (config.DeviceID device)
          ∈ currentKeys (api.MyID s) (config.Devices (api.Configuration s))) as Hin.
  { unfold currentKeys, managedIDs.
    apply elem_of_union_r, elem_of_list_to_set, list_elem_of_In, in_map_iff.
    by exists device. }
  rewrite <- Heq in Hin. unfold desiredKeys in Hin.
  apply elem_of_union in Hin as [Hin|Hin].
  - apply elem_of_singleton in Hin. unfold managedDevices in Hd.
    apply filter_In in Hd as [_ Hman]. apply negb_true_iff in Hman.
    unfold selfOrIntroduced in Hman. apply orb_false_iff in Hman as [Hself _].
    by apply String.eqb_neq in Hself.
  - apply elem_of_list_to_set, list_elem_of_filter in Hin as [_ Hin].
    by apply list_elem_of_In in Hin.
Qed.

(** [X10]  Attribute drift is not seen: replacing a current device by
    one with the same identifier and the same introduced-by, but other
    addresses (as long as both address lists are empty or both are not)
    and another introducer flag, leaves the outcome as it was. *)
Theorem syncthingNeedsReconfigure_ignores_attributes
    nodeList myID (folders : list config.FolderConfiguration)
    before after (device device' : config.DeviceConfiguration) :
  config.DeviceID device' = config.DeviceID device ->
  config.IntroducedBy device' = config.IntroducedBy device ->
  (config.Addresses device = [] <-> config.Addresses device' = []) ->
  syncthingNeedsReconfigure nodeList
    (Some {| api.SystemStatusMyID := myID;
             api.Configuration := {| config.Devices := before ++ device :: after;
                                     config.Folders := folders |} |})
  = syncthingNeedsReconfigure nodeList
      (Some {| api.SystemStatusMyID := myID;
               api.Configuration := {| config.Devices := before ++ device' :: after;
                                       config.Folders := folders |} |}).
Proof.
  intros Hid Hby Haddr. rewrite !syncthingNeedsReconfigure_outcome. unfold api.MyID. simpl.
  assert (selfOrIntroduced myID device' = selfOrIntroduced myID device) as Hsel.
  { unfold selfOrIntroduced. by rewrite Hid, Hby. }
  assert (addressesPresentb myID (before ++ device' :: after)
          = addressesPresentb myID (before ++ device :: after)) as ->.
  { unfold addressesPresentb. rewrite !managedDevices_app, !forallb_app.
    f_equal. unfold managedDevices. simpl. rewrite Hsel.
    destruct (selfOrIntroduced myID device); simpl; [done|]. f_equal.
    destruct (config.Addresses device), (config.Addresses device'); try done.
    - discriminate (proj1 Haddr eq_refl).
    - discriminate (proj2 Haddr eq_refl). }
  assert (currentKeys myID (before ++ device' :: after)
          = currentKeys myID (before ++ device :: after)) as ->; [|done].
  unfold currentKeys, managedIDs. rewrite !managedDevices_app, !map_app.
  do 3 f_equal. unfold managedDevices. simpl. rewrite Hsel.
  destruct (selfOrIntroduced myID device); simpl; [done|]. by rewrite Hid.
Qed.

End ReconciliationFacts.

(** * Further properties of the helpers *)
Section HelperFacts.
Context `{R : runtime.Limits}.
Import regexp.

(** [X11]  A failure of the entropy source surfaces unchanged: for a
    length from 0 to the allocation limit that the heap can grant, when
    [rand.Read] fails with the error [e], [GenerateRandomBytes] returns
    no bytes and [e], and [GenerateRandomString] returns the empty
    string and [e]. *)
Theorem entropy_failure_surfaces (src : EntropySource) (n : Z) (e : error) :
  0 <= n <= runtime.maxAlloc -> n <= runtime.heapFree -> randErr src = Some e ->
  GenerateRandomBytes src n = Returned ([], Some e)
  ∧ GenerateRandomString src n = Returned ("", Some e).
Proof.
  intros Hn Hheap Hsrc.
  assert (GenerateRandomBytes src n = Returned ([], Some e)) as Hbytes.
  { unfold GenerateRandomBytes, randRead.
    rewrite (makeBytes_returned n Hn Hheap). by rewrite Hsrc. }
  split; [done|]. unfold GenerateRandomString. by rewrite Hbytes.
Qed.

(** [X12]  The byte-to-character mapping reaches the whole band: every
    code from 33 to 126 is the image of a byte, namely of the byte
    [c - 33]. *)
Theorem acceptableByte_onto (c : Z) :
  33 <= c <= 126 ->
  0 <= c - 33 < 256 ∧ acceptableByte (c - 33) = c.
Proof.
  intros Hc. split; [lia|].
  destruct (acceptableByte_band (c - 33)) as [-> _].
  rewrite Z.mod_small by lia. lia.
Qed.

(** [X13]  The mapping is biased towards the low end of the band: of
    the 256 bytes, three are mapped to each code from 33 to 100 and two
    to each code from 101 to 126. *)
Theorem acceptableByte_bias (c : Z) :
  33 <= c <= 126 ->
  List.length (List.filter (fun b => acceptableByte b =? c)
                 (map Z.of_nat (seq 0 256)))
  = if c <=? 100 then 3%nat else 2%nat.
Proof.
  intros Hc.
  assert (forallb
            (fun c => Nat.eqb
               (List.length (List.filter (fun b => acceptableByte b =? c)
                               (map Z.of_nat (seq 0 256))))
               (if c <=? 100 then 3%nat else 2%nat))
            (map (fun k => 33 + Z.of_nat k) (seq 0 94)) = true) as Hall.
  { by vm_compute. }
  rewrite forallb_forall in Hall. apply Nat.eqb_eq, Hall.
  apply in_map_iff. exists (Z.to_nat (c - 33)). split; [lia|].
  apply in_seq. lia.
Qed.

Lemma Matches_Star_any (s : list ascii) : Matches (Star (CharClass (fun _ => true))) s.
Proof. apply Matches_Star_class. by induction s. Qed.

(** [X14]  Whatever the input, the result of [asTCPAddress] starts with
    a scheme: it matches [^\w+://]. *)
Theorem asTCPAddress_has_scheme (address : string) :
  MatchString schemePrefixPattern (asTCPAddress address) = true.
Proof.
  unfold MatchString. apply matchBytes_Matches. unfold schemePrefixPattern.
  unfold asTCPAddress. rewrite MatchString_uriPattern.
  destruct (schemeAndRest (list_ascii_of_string address)) eqn:Hmatch.
  - apply schemeAndRest_inv in Hmatch as (w & c & rest & -> & Hne & Hall & _).
    rewrite app_assoc. constructor; [|apply Matches_Star_any].
    apply Matches_scheme. by exists w.
  - change (list_ascii_of_string ("tcp://" +:+ address))
      with ((["t"; "c"; "p"] ++ [":"; "/"; "/"]) ++ list_ascii_of_string address)%char.
    constructor; [|apply Matches_Star_any].
    apply Matches_scheme. by exists ["t"; "c"; "p"]%char.
Qed.

End HelperFacts.

(** ** The further properties at concrete inputs *)
Section FurtherEvaluation.
Import sample.

Lemma updateSyncthingDevices_first_error_witness :
  returnedErr (updateSyncthingDevices ([peerA] ++ peer "not an id" "" :: [peerA])
                 (Some agentSelfB))
  = Some "device ID invalid".
Proof.
  apply (updateSyncthingDevices_first_error [peerA] [peerA] (peer "not an id" "")
           "device ID invalid" agentSelfB).
  - constructor; [reflexivity|constructor].
  - reflexivity.
Defined.

(** The agent had a managed device without address; after the update
    the comparator returns. *)
Lemma updateSyncthingDevices_then_comparator_returns_witness :
  ∃ b, syncthingNeedsReconfigure [peer "C" ""]
         (Some (api.ShareFoldersWithDevices
                  [selfDevice; device "A" ["10.0.0.2:22000"] ""]
                  (api.setDevices [selfDevice; device "A" ["10.0.0.2:22000"] ""]
                     agentNoAddress)))
       = Returned b.
Proof.
  apply (updateSyncthingDevices_then_comparator_returns [peerA] [peer "C" ""]
           agentNoAddress); reflexivity.
Defined.

Lemma updateSyncthingDevices_converges_witness :
  syncthingNeedsReconfigure [peerA]
    (Some (api.ShareFoldersWithDevices
             [selfDevice; device "B" ["10.0.0.3:22000"] "A";
              device "A" ["10.0.0.2:22000"] ""]
             (api.setDevices
                [selfDevice; device "B" ["10.0.0.3:22000"] "A";
                 device "A" ["10.0.0.2:22000"] ""]
                agentSelfBC)))
  = Returned false.
Proof.
  apply (updateSyncthingDevices_converges [peerA] agentSelfBC).
  - reflexivity.
  - intros p [<-|[]]. reflexivity.
  - reflexivity.
  - reflexivity.
Defined.

Lemma updateSyncthingDevices_twice_witness :
  returnedErr
    (updateSyncthingDevices [peerA]
       (Some (api.ShareFoldersWithDevices
                [selfDevice; device "B" ["10.0.0.3:22000"] "A";
                 device "A" ["10.0.0.2:22000"] ""]
                (api.setDevices
                   [selfDevice; device "B" ["10.0.0.3:22000"] "A";
                    device "A" ["10.0.0.2:22000"] ""]
                   agentSelfBC))))
  = None.
Proof.
  apply (updateSyncthingDevices_twice [peerA] agentSelfBC).
  - reflexivity.
  - intros p [<-|[]]. simpl. discriminate.
  - reflexivity.
  - reflexivity.
Defined.

Lemma syncthingNeedsReconfigure_set_of_identifiers_witness :
  syncthingNeedsReconfigure [peerA; peer "C" ""] (Some agentSelfBC)
  = syncthingNeedsReconfigure [peer "C" "10.9.9.9:22000"; peerA; peerA] (Some agentSelfBC).
Proof.
  apply (syncthingNeedsReconfigure_set_of_identifiers
           [peerA; peer "C" ""] [peer "C" "10.9.9.9:22000"; peerA; peerA]
           (Some agentSelfBC)).
  simpl. set_solver.
Defined.

Lemma syncthingNeedsReconfigure_skips_self_peer_witness :
  syncthingNeedsReconfigure ([peerA] ++ peer "SELF" "" :: []) (Some agentSelfBC)
  = syncthingNeedsReconfigure ([peerA] ++ []) (Some agentSelfBC).
Proof.
  apply (syncthingNeedsReconfigure_skips_self_peer [peerA] [] (peer "SELF" "") agentSelfBC).
  reflexivity.
Defined.

Lemma syncthingNeedsReconfigure_skips_self_device_witness :
  syncthingNeedsReconfigure [peerA]
    (Some {| api.SystemStatusMyID := "SELF";
             api.Configuration :=
               {| config.Devices := [] ++ selfDevice :: [device "C" ["10.0.0.4:22000"] ""];
                  config.Folders := [] |} |})
  = syncthingNeedsReconfigure [peerA]
      (Some {| api.SystemStatusMyID := "SELF";
               api.Configuration :=
                 {| config.Devices := [] ++ [device "C" ["10.0.0.4:22000"] ""];
                    config.Folders := [] |} |}).
Proof.
  apply (syncthingNeedsReconfigure_skips_self_device [peerA] "SELF" [] []
           [device "C" ["10.0.0.4:22000"] ""] selfDevice).
  reflexivity.
Defined.

Lemma syncthingNeedsReconfigure_new_peer_witness :
  syncthingNeedsReconfigure [peer "C" ""; peerA] (Some agentSelfBC) = Returned true.
Proof.
  apply (syncthingNeedsReconfigure_new_peer [peer "C" ""; peerA] agentSelfBC peerA).
  - exact agentSelfBC_addressesPresent.
  - right. by left.
  - simpl. discriminate.
  - simpl. intros [Heq|[]]. discriminate.
Defined.

Lemma syncthingNeedsReconfigure_dropped_device_witness :
  syncthingNeedsReconfigure [peerA] (Some agentSelfBC) = Returned true.
Proof.
  apply (syncthingNeedsReconfigure_dropped_device [peerA] agentSelfBC
           (device "C" ["10.0.0.4:22000"] "")).
  - exact agentSelfBC_addressesPresent.
  - simpl. by left.
  - simpl. intros [Heq|[]]. discriminate.
Defined.

Lemma syncthingNeedsReconfigure_ignores_attributes_witness :
  syncthingNeedsReconfigure [peer "C" ""]
    (Some {| api.SystemStatusMyID := "SELF";
             api.Configuration :=
               {| config.Devices := [selfDevice] ++ device "C" ["10.0.0.4:22000"] "" :: [];
                  config.Folders := [] |} |})
  = syncthingNeedsReconfigure [peer "C" ""]
      (Some {| api.SystemStatusMyID := "SELF";
               api.Configuration :=
                 {| config.Devices :=
                      [selfDevice] ++ device "C" ["10.7.7.7:22000"; "dynamic"] "" :: [];
                    config.Folders := [] |} |}).
Proof.
  apply (syncthingNeedsReconfigure_ignores_attributes [peer "C" ""] "SELF" []
           [selfDevice] [] (device "C" ["10.0.0.4:22000"] "")
           (device "C" ["10.7.7.7:22000"; "dynamic"] "")).
  - reflexivity.
  - reflexivity.
  - simpl. split; discriminate.
Defined.

Lemma entropy_failure_surfaces_witness :
  GenerateRandomBytes {| randErr := Some "entropy unavailable"; randByte := fun _ => 0 |} 3
  = Returned ([], Some "entropy unavailable")
  ∧ GenerateRandomString {| randErr := Some "entropy unavailable"; randByte := fun _ => 0 |} 3
    = Returned ("", Some "entropy unavailable").
Proof.
  apply (entropy_failure_surfaces
           {| randErr := Some "entropy unavailable"; randByte := fun _ => 0 |} 3
           "entropy unavailable");
    [vm_compute; split; discriminate|vm_compute; discriminate|reflexivity].
Defined.

Lemma acceptableByte_onto_witness : 0 <= 126 - 33 < 256 ∧ acceptableByte (126 - 33) = 126.
Proof. apply (acceptableByte_onto 126). lia. Defined.

Lemma acceptableByte_bias_witness :
  List.length (List.filter (fun b => acceptableByte b =? 101) (map Z.of_nat (seq 0 256)))
  = 2%nat.
Proof. apply (acceptableByte_bias 101). lia. Defined.

End FurtherEvaluation.
